(** * The HTTP front end of the command API (commands/http/handler.go)

    A shallow embedding of the handler that turns the result of a command
    into a hand-framed, chunked HTTP/1.1 response, together with the
    properties of its wire format, its error reporting, its header
    assembly and its default configuration.

    Go strings and byte slices are byte sequences: both are [string] here
    (a Rocq [ascii] is one byte).  Go maps are stdpp's [gmap].  The Go
    values [nil] of pointer, slice and error type are [None]. *)

From stdpp Require Import gmap strings list fin_maps.
From Stdlib Require Import Ascii String DecimalString DecimalN.

Local Open Scope string_scope.

(** ** Bytes and text *)

Definition CR : ascii := "013"%char.
Definition LF : ascii := "010"%char.

(** The two bytes ["\r\n"]. *)
Definition CRLF : string := String CR (String LF EmptyString).

(** [s[:n]] and [s[n:]], clipped to the length of [s]. *)
Fixpoint take_s (n : nat) (s : string) : string :=
  match n, s with
  | S n', String c s' => String c (take_s n' s')
  | _, _ => EmptyString
  end.

Fixpoint drop_s (n : nat) (s : string) : string :=
  match n, s with
  | S n', String _ s' => drop_s n' s'
  | _, _ => s
  end.

(** [c] occurs in [s]. *)
Fixpoint occurs (c : ascii) (s : string) : Prop :=
  match s with
  | EmptyString => False
  | String c' s' => c' = c ∨ occurs c s'
  end.

(** ** Go error values

    An [error] is an interface value; the constructors are the values that
    can reach this file: the sentinels of package io, the package variable
    [ErrNotFound], values built by [errors.New], the cast failure of the
    option accessors, and the errors produced by a body source and by the
    network connection. *)
Inductive error : Type :=
| io_EOF
| io_ErrShortWrite
| ErrNotFound
| ErrCast
| errors_New (msg : string)
| SourceError (msg : string)
| ConnError (msg : string).

#[global] Instance error_eq_dec : EqDecision error.
Proof. solve_decision. Defined.

(** [err.Error()]. *)
Definition Error (e : error) : string :=
  match e with
  | io_EOF => "EOF"
  | io_ErrShortWrite => "short write"
  | ErrNotFound => "404 page not found"
  | ErrCast => "cast error"
  | errors_New msg => msg
  | SourceError msg => msg
  | ConnError msg => msg
  end.

(** ** Constants of the file *)

Definition StreamErrHeader : string := "X-Stream-Error".
Definition streamHeader : string := "X-Stream-Output".
Definition channelHeader : string := "X-Chunked-Output".
Definition contentTypeHeader : string := "Content-Type".
Definition contentLengthHeader : string := "Content-Length".
Definition transferEncodingHeader : string := "Transfer-Encoding".
Definition applicationJson : string := "application/json".

Definition localhostOrigins : list string :=
  [ "http://127.0.0.1"; "https://127.0.0.1";
    "http://localhost"; "https://localhost" ].

Definition StatusOK : nat := 200.
Definition StatusBadRequest : nat := 400.
Definition StatusNotFound : nat := 404.
Definition StatusInternalServerError : nat := 500.

(** [http.StatusText], on the codes this file produces; the library
    returns the empty string for a code it does not know. *)
Definition StatusText (code : nat) : string :=
  if decide (code = 200) then "OK"
  else if decide (code = 400) then "Bad Request"
  else if decide (code = 404) then "Not Found"
  else if decide (code = 500) then "Internal Server Error"
  else "".

(** ** Formatting numbers *)

(** [%d] of a non-negative integer, [strconv.FormatUint(n, 10)]. *)
Definition fmt_d (n : N) : string := NilEmpty.string_of_uint (N.to_uint n).

Definition hexdigit (d : nat) : ascii :=
  match d with
  | 0 => "0" | 1 => "1" | 2 => "2" | 3 => "3" | 4 => "4" | 5 => "5"
  | 6 => "6" | 7 => "7" | 8 => "8" | 9 => "9" | 10 => "a" | 11 => "b"
  | 12 => "c" | 13 => "d" | 14 => "e" | _ => "f"
  end%char.

(** The digit loop of [%x]: while [u >= 16] emit the low digit and shift,
    then emit the last digit.  [fuel] bounds the iterations. *)
Fixpoint fmt_x_go (fuel u : nat) (acc : string) : string :=
  match fuel with
  | 0 => String (hexdigit u) acc
  | S fuel' =>
      if decide (16 ≤ u)%nat
      then fmt_x_go fuel' (u / 16) (String (hexdigit (u mod 16)) acc)
      else String (hexdigit u) acc
  end.

(** [fmt.Sprintf("%x", n)] for [n >= 0]. *)
Definition fmt_x (n : nat) : string := fmt_x_go n n EmptyString.

(** Reading a lowercase hexadecimal number back, as an HTTP client does
    with a chunk size. *)
Definition hexdigit_val (c : ascii) : option nat :=
  let n := nat_of_ascii c in
  if decide (48 ≤ n ≤ 57)%nat then Some (n - 48)
  else if decide (97 ≤ n ≤ 102)%nat then Some (n - 87)
  else None.

Fixpoint parse_hex_go (s : string) (acc : nat) : option nat :=
  match s with
  | EmptyString => Some acc
  | String c s' =>
      match hexdigit_val c with
      | Some d => parse_hex_go s' (16 * acc + d)
      | None => None
      end
  end.

Definition parse_hex (s : string) : option nat :=
  match s with
  | EmptyString => None
  | _ => parse_hex_go s 0
  end.

(** ** sanitizedErrStr *)

(** [strings.Split(s, sep)] for a separator of one byte, the only kind
    this file uses.  The result is never empty. *)
Fixpoint Split (s : string) (sep : ascii) : list string :=
  match s with
  | EmptyString => [EmptyString]
  | String c s' =>
      if decide (c = sep) then EmptyString :: Split s' sep
      else match Split s' sep with
           | h :: t => String c h :: t
           | [] => [String c EmptyString]
           end
  end.

(** [l[0]]; every use is on the result of [Split], which has an element. *)
Definition index0 (l : list string) : string := hd EmptyString l.

Definition sanitizedErrStr (err : error) : string :=
  let s := Error err in
  let s := index0 (Split s LF) in
  let s := index0 (Split s CR) in
  s.

(** The spec's wording of the same: the message cut at the first newline
    or carriage return. *)
Fixpoint truncate_at_first_newline_or_cr (s : string) : string :=
  match s with
  | EmptyString => EmptyString
  | String c s' =>
      if decide (c = LF ∨ c = CR) then EmptyString
      else String c (truncate_at_first_newline_or_cr s')
  end.

(** ** skipAPIHeader *)

Definition skipAPIHeader (h : string) : bool :=
  if decide (h = "Access-Control-Allow-Origin") then true
  else if decide (h = "Access-Control-Allow-Methods") then true
  else if decide (h = "Access-Control-Allow-Credentials") then true
  else false.

(** The reserved CORS header names. *)
Definition reserved_cors_headers : list string :=
  [ "Access-Control-Allow-Origin"; "Access-Control-Allow-Methods";
    "Access-Control-Allow-Credentials" ].

(** ASCII lower-casing, to speak about names that differ only in case. *)
Definition lower_ascii (c : ascii) : ascii :=
  let n := nat_of_ascii c in
  if decide (65 ≤ n ≤ 90)%nat then ascii_of_nat (n + 32) else c.

Fixpoint lower (s : string) : string :=
  match s with
  | EmptyString => EmptyString
  | String c s' => String (lower_ascii c) (lower s')
  end.

(** ** The network connection and its buffered writer

    After a hijack the handler writes to the connection through the
    [bufio] writer that [Hijack] returns.  Both belong to Go's library;
    they are modelled by what the handler can observe of them. *)

(** A connection: the bytes it has accepted so far, and when it breaks.
    [breaks = Some (k, e)]: it accepts [k] more bytes and then fails every
    write with [e]; [None]: it accepts every write. *)
Record Conn : Type := mkConn {
  wire : string;
  breaks : option (nat * error);
  closed : bool
}.

(** [conn.Write(p)]: the number of bytes accepted and an error if that is
    fewer than [len(p)]. *)
Definition conn_Write (c : Conn) (p : string) : Conn * nat * option error :=
  match breaks c with
  | None => (mkConn (wire c +:+ p) None (closed c), String.length p, None)
  | Some (k, e) =>
      if decide (String.length p ≤ k)%nat
      then (mkConn (wire c +:+ p) (Some (k - String.length p, e)) (closed c),
            String.length p, None)
      else (mkConn (wire c +:+ take_s k p) (Some (0, e)) (closed c),
            k, Some e)
  end.

Definition conn_Close (c : Conn) : Conn := mkConn (wire c) (breaks c) true.

(** [bufio.Writer]: [buf] is the filled part [b.buf[0:b.n]] of a buffer of
    [bufsize] bytes, [werr] the first error met, which the writer keeps:
    once it is set no more data is accepted. *)
Record Writer : Type := mkWriter {
  wr : Conn;
  bufsize : nat;
  buf : string;
  werr : option error
}.

Definition Available (b : Writer) : nat := bufsize b - String.length (buf b).
Definition Buffered (b : Writer) : nat := String.length (buf b).

(** [copy(b.buf[b.n:], s)]: as much of [s] as fits. *)
Definition copy_in (b : Writer) (s : string) : Writer * nat :=
  let n := Nat.min (Available b) (String.length s) in
  (mkWriter (wr b) (bufsize b) (buf b +:+ take_s n s) (werr b), n).

Definition Flush (b : Writer) : Writer * option error :=
  match werr b with
  | Some e => (b, Some e)
  | None =>
      if decide (Buffered b = 0) then (b, None)
      else
        let '(c, n, e) := conn_Write (wr b) (buf b) in
        let e := match e with
                 | None => if decide (n < Buffered b)%nat
                           then Some io_ErrShortWrite else None
                 | Some _ => e
                 end in
        match e with
        | Some e' => (mkWriter c (bufsize b) (drop_s n (buf b)) (Some e'), Some e')
        | None => (mkWriter c (bufsize b) EmptyString None, None)
        end
  end.

(** The loop of [WriteString]: while the rest does not fit and no error
    is set, fill the buffer and flush it. *)
Fixpoint WriteString_loop (fuel : nat) (b : Writer) (s : string) (nn : nat)
  : Writer * string * nat :=
  match fuel with
  | 0 => (b, s, nn)
  | S fuel' =>
      if decide ((Available b < String.length s)%nat ∧ werr b = None) then
        let '(b1, n) := copy_in b s in
        WriteString_loop fuel' (Flush b1).1 (drop_s n s) (nn + n)
      else (b, s, nn)
  end.

Definition WriteString (b : Writer) (s : string) : Writer * nat * option error :=
  let '(b1, s1, nn) := WriteString_loop (2 * String.length s + 2) b s 0 in
  match werr b1 with
  | Some e => (b1, nn, Some e)
  | None => let '(b2, n) := copy_in b1 s1 in (b2, nn + n, None)
  end.

(** The loop of [Write]: as [WriteString], but a write that finds the
    buffer empty goes straight to the connection. *)
Fixpoint Write_loop (fuel : nat) (b : Writer) (p : string) (nn : nat)
  : Writer * string * nat :=
  match fuel with
  | 0 => (b, p, nn)
  | S fuel' =>
      if decide ((Available b < String.length p)%nat ∧ werr b = None) then
        if decide (Buffered b = 0) then
          let '(c, n, e) := conn_Write (wr b) p in
          Write_loop fuel' (mkWriter c (bufsize b) (buf b) e) (drop_s n p) (nn + n)
        else
          let '(b1, n) := copy_in b p in
          Write_loop fuel' (Flush b1).1 (drop_s n p) (nn + n)
      else (b, p, nn)
  end.

Definition Write (b : Writer) (p : string) : Writer * nat * option error :=
  let '(b1, p1, nn) := Write_loop (2 * String.length p + 2) b p 0 in
  match werr b1 with
  | Some e => (b1, nn, Some e)
  | None => let '(b2, n) := copy_in b1 p1 in (b2, nn + n, None)
  end.

(** A call whose results the handler does not look at. *)
Definition discard {A B : Type} (r : Writer * A * B) : Writer := r.1.1.

(** Every byte handed to the writer so far that it has not refused: what
    the connection got, then what is still buffered. *)
Definition pending (b : Writer) : string := wire (wr b) +:+ buf b.

(** A writer whose connection never fails. *)
Definition healthy (b : Writer) : Prop :=
  breaks (wr b) = None ∧ werr b = None ∧ (0 < bufsize b)%nat
  ∧ (String.length (buf b) ≤ bufsize b)%nat.

(** ** The body source

    An [io.Reader] is seen through the results of its [Read] calls: the
    bytes put into the buffer ([n] is their number, at most the 32 KiB of
    the buffer that [writeChunks] passes) and the error.  A source is the
    list of results it will give; a source that has given them all
    reports [0, io.EOF], as Go's readers do at the end of their data. *)
Record ReadResult : Type := mkRead {
  rdata : string;
  rerr : option error
}.

Abbreviation Reader := (list ReadResult).

Definition Read (r : Reader) : ReadResult * Reader :=
  match r with
  | [] => (mkRead EmptyString (Some io_EOF), [])
  | x :: r' => (x, r')
  end.

(** ** writeChunks *)

(** What one turn of the loop decides. *)
Inductive LoopStep : Type :=
| Continue
| Return (e : option error).

(** One chunk record: hex size, CRLF, payload, CRLF. *)
Definition chunk_record (d : string) : string :=
  fmt_x (String.length d) +:+ CRLF +:+ d +:+ CRLF.

(** The body of the loop, for the result [x] of [r.Read(buf)]. *)
Definition writeChunks_step (x : ReadResult) (w : Writer) : Writer * LoopStep :=
  let n := String.length (rdata x) in
  let err := rerr x in
  let '(w, early) :=
    if decide (0 < n)%nat then
      let length := fmt_x n +:+ CRLF in
      let w := discard (WriteString w length) in
      let '(w, _, err) := Write w (rdata x) in
      match err with
      | Some e => (w, Some e)
      | None =>
          let w := discard (WriteString w CRLF) in
          let w := (Flush w).1 in
          (w, None)
      end
    else (w, None) in
  match early with
  | Some e => (w, Return (Some e))
  | None =>
      match err with
      | Some e => if decide (e = io_EOF) then (w, Return None)
                  else (w, Return (Some e))
      | None => (w, Continue)
      end
  end.

(** The loop, by recursion on the results still to come: [r.Read(buf)]
    takes the first of them.  At the end of the data [Read] gives
    [0, io.EOF], for which the body writes nothing and breaks, so the
    function returns nil. *)
Fixpoint writeChunks (r : Reader) (w : Writer) : Writer * option error :=
  match r with
  | [] => (w, None)
  | x :: r' =>
      match writeChunks_step x w with
      | (w', Continue) => writeChunks r' w'
      | (w', Return e) => (w', e)
      end
  end.

(** ** Requests, options and results of the command layer *)

(** The value of an option: an [interface{}] that the accessors cast. *)
Inductive OptVal : Type :=
| OptString (s : string)
| OptBool (b : bool)
| OptOther.

(** Modelled from the spec: the request type of package commands is not
    part of this file; its options are "an immutable mapping from option
    name to typed value", and [Option(name)] looks the name up in it. *)
Record Request : Type := mkRequest {
  options : gmap string OptVal
}.

(** Modelled from the spec: the constants of package commands that name
    the encoding option and the encodings ("json", "xml", "text") are not
    part of this file. *)
Definition EncShort : string := "encoding".
Definition JSON : string := "json".
Definition XML : string := "xml".
Definition Text : string := "text".

Definition Request_Option (req : Request) (name : string) : option OptVal :=
  options req !! name.

(** Modelled from the spec: the accessors of an option value are not
    part of this file.  [String()] gives the value, whether the option
    was found ("fails ... if absent"), and an error when the value is
    not a string. *)
Definition OptionValue_String (ov : option OptVal) : string * bool * option error :=
  match ov with
  | None => (EmptyString, false, None)
  | Some (OptString s) => (s, true, None)
  | Some _ => (EmptyString, true, Some ErrCast)
  end.

(** Modelled from the spec: [Bool()], the same for the boolean
    "streaming preference". *)
Definition OptionValue_Bool (ov : option OptVal) : bool * bool * option error :=
  match ov with
  | None => (false, false, None)
  | Some (OptBool b) => (b, true, None)
  | Some _ => (false, true, Some ErrCast)
  end.

(** Modelled from the spec: the error classes of package commands,
    numbered in the order of their declaration; an error of a result is
    "client-caused" or of another class. *)
Definition ErrNormal : nat := 0.
Definition ErrClient : nat := 1.

Record cmds_Error : Type := mkError {
  Message : string;
  Code : nat
}.

(** The dynamic type of [res.Output()]: a byte stream, a channel of
    either direction, or any other value. *)
Inductive Output : Type :=
| OutReader (r : Reader)
| OutChan
| OutRecvChan
| OutValue.

(** Modelled from the spec: the result of a command "holds an optional
    terminal error (with a classification), an output value of exactly
    one variant, and an optional known byte length"; the interface
    [cmds.Response] is not part of this file and is kept as what its
    methods [Request], [Error], [Output], [Length] and [Reader] return. *)
Record Response : Type := mkResponse {
  res_Request : Request;
  res_Error : option cmds_Error;
  res_Output : Output;
  res_Length : N;
  res_Reader : Reader * option error
}.

(** ** Server configuration and NewHandler *)

Abbreviation Header := (gmap string (list string)).

(** Modelled from the spec: the options of the CORS library are not
    part of this file; they are kept as the two fields it touches, the
    "allowed methods" and the "allowed origins".  A [nil] slice is
    [None]. *)
Record cors_Options : Type := mkOptions {
  AllowedOrigins : option (list string);
  AllowedMethods : option (list string)
}.

Record ServerConfig : Type := mkServerConfig {
  Headers : Header;
  CORSOpts : option cors_Options
}.

(** The result of code that can panic. *)
Inductive result (A : Type) : Type :=
| Ok (a : A)
| Panic (msg : string).
Arguments Ok {A} a.
Arguments Panic {A} msg.

#[global] Instance result_bind : MBind result := λ A B k r,
  match r with
  | Ok a => k a
  | Panic msg => Panic msg
  end.

(** [*p] and [p.f]: following a pointer panics when it is [nil]. *)
Definition deref {A : Type} (p : option A) : result A :=
  match p with
  | Some a => Ok a
  | None => Panic "invalid memory address or nil pointer dereference"
  end.

(** Modelled from the spec: the context and the command of package
    commands are not part of this file.  A context is kept as what
    [GetNode] returns for this request, a command as what [Call]
    returns, "a Result synchronously". *)
Record Context : Type := mkContext {
  GetNode : option error
}.

Record Command : Type := mkCommand {
  Call : Request → Response
}.

Record internalHandler : Type := mkInternal {
  ctx : Context;
  root : Command;
  cfg : ServerConfig
}.

(** Modelled from the spec: the CORS middleware that [cors.New(opts)]
    builds around the internal handler is not part of this file; it is
    kept as the options it was built from. *)
Record Handler : Type := mkHandler {
  internal : internalHandler;
  corsHandler : cors_Options
}.

Definition NewHandler (ctx : Context) (root : Command)
    (cfg : option ServerConfig) : result Handler :=
  let cfg := match cfg with
             | None => Some (mkServerConfig ∅ None)
             | Some _ => cfg
             end in
  c ← deref cfg;
  let cfg := match CORSOpts c with
             | None => Some (mkServerConfig (Headers c) (Some (mkOptions None None)))
             | Some _ => cfg
             end in
  c ← deref cfg;
  o ← deref (CORSOpts c);
  let cfg := match AllowedMethods o with
             | None => Some (mkServerConfig (Headers c)
                           (Some (mkOptions (AllowedOrigins o) (Some ["GET"; "POST"; "PUT"]))))
             | Some _ => cfg
             end in
  c ← deref cfg;
  o ← deref (CORSOpts c);
  let cfg := match AllowedOrigins o with
             | None => Some (mkServerConfig (Headers c)
                           (Some (mkOptions (Some localhostOrigins) (AllowedMethods o))))
             | Some _ => cfg
             end in
  c ← deref cfg;
  o ← deref (CORSOpts c);
  Ok (mkHandler (mkInternal ctx root c) o).

(** ** The response writer

    What the handler can do to the [http.ResponseWriter] of one request,
    and what it leaves behind: the header map, the status and body sent
    through the library's own path, the raw connection once hijacked, and
    the lines given to the package logger. *)

Inductive HijackSupport : Type :=
| NotHijacker                 (**r the type assertion [w.(http.Hijacker)] fails *)
| HijackFails (e : error)     (**r [Hijack()] returns an error *)
| Hijackable.

Inductive LogLine : Type :=
| LogDebug (msg : string)
| LogError (msg : string).

Record ResponseWriter : Type := mkRW {
  header : Header;
  hijack : HijackSupport;
  hijacked : bool;
  rw : Writer;
  sent_status : option nat;
  sent_body : string;
  log : list LogLine
}.

Record http_Request : Type := mkHttpRequest {
  Method : string
}.

Definition with_header (w : ResponseWriter) (h : Header) : ResponseWriter :=
  mkRW h (hijack w) (hijacked w) (rw w) (sent_status w) (sent_body w) (log w).

Definition with_log (w : ResponseWriter) (l : LogLine) : ResponseWriter :=
  mkRW (header w) (hijack w) (hijacked w) (rw w) (sent_status w) (sent_body w) (log w ++ [l]).

(** [h.Set(key, value)].  The keys this file passes are its header
    constants, which are in canonical form already. *)
Definition Header_Set (h : Header) (key value : string) : Header :=
  <[key := [value]]> h.

(** [w.WriteHeader(code)] and [w.Write(p)] on the library's path. *)
Definition WriteHeader (w : ResponseWriter) (code : nat) : ResponseWriter :=
  match sent_status w with
  | Some _ => w
  | None => mkRW (header w) (hijack w) (hijacked w) (rw w) (Some code) (sent_body w) (log w)
  end.

Definition ResponseWriter_Write (w : ResponseWriter) (p : string) : ResponseWriter :=
  let w := WriteHeader w StatusOK in
  mkRW (header w) (hijack w) (hijacked w) (rw w) (sent_status w) (sent_body w +:+ p) (log w).

(** [http.Error(w, msg, code)]. *)
Definition http_Error (w : ResponseWriter) (msg : string) (code : nat) : ResponseWriter :=
  let w := with_header w (Header_Set (header w) contentTypeHeader "text/plain; charset=utf-8") in
  let w := WriteHeader w code in
  ResponseWriter_Write w (msg +:+ String LF EmptyString).

(** ** guessMimeType *)

Definition mimeTypes : gmap string string :=
  {[ JSON := "application/json"; XML := "application/xml"; Text := "text/plain" ]}.

Definition guessMimeType (res : Response) : string * option error :=
  let '(enc, found, err) :=
    OptionValue_String (Request_Option (res_Request res) EncShort) in
  match err with
  | Some e => (EmptyString, Some e)
  | None =>
      if negb found then (EmptyString, Some (errors_New "no encoding option set"))
      else (default EmptyString (mimeTypes !! enc), None)
  end.

(** ** Applying the operator's headers *)

(** The loop [for k, v := range i.cfg.Headers] of [ServeHTTP]. *)
Definition apply_headers (extra : Header) (h : Header) : Header :=
  map_fold (λ k v acc, if negb (skipAPIHeader k) then <[k := v]> acc else acc) h extra.

Section Handler.

(** The wire form of a header map, as [http.Header.Write] gives it. *)
Variable Header_Write : Header → string.

(** Modelled from the spec: [Parse(r, root)] and
    [req.SetRootContext(ctx)] are not part of this file; the "request
    parsing contract" produces a structured request or an error. *)
Variable Parse : http_Request → Command → Request * option error.
Variable SetRootContext : Request → option error.

(** ** writeResponse *)

Definition status_line (status : nat) : string :=
  "HTTP/1.1 " +:+ fmt_d (N.of_nat status) +:+ " " +:+ StatusText status +:+ CRLF.

Definition trailer_line (e : error) : string :=
  StreamErrHeader +:+ ": " +:+ sanitizedErrStr e +:+ CRLF.

Definition writeResponse (status : nat) (w : ResponseWriter) (out : Reader)
  : ResponseWriter * option error :=
  match hijack w with
  | NotHijacker =>
      (with_log w (LogError "Failed to create hijacker! cannot continue!"),
       Some (errors_New "Could not create hijacker"))
  | HijackFails e => (w, Some e)
  | Hijackable =>
      let writer := rw w in
      let writer := discard (WriteString writer (status_line status)) in
      let writer := discard (WriteString writer (Header_Write (header w))) in
      let writer := discard (WriteString writer CRLF) in
      let '(writer, streamErr) := writeChunks out writer in
      let writer := discard (WriteString writer ("0" +:+ CRLF)) in
      let writer :=
        match streamErr with
        | Some e => discard (WriteString writer (trailer_line e))
        | None => writer
        end in
      let writer := discard (WriteString writer CRLF) in
      let writer := (Flush writer).1 in
      let writer := mkWriter (conn_Close (wr writer)) (bufsize writer)
                      (buf writer) (werr writer) in
      (mkRW (header w) (hijack w) true writer (sent_status w) (sent_body w) (log w),
       streamErr)
  end.

(** ** sendResponse *)

(** The status the result asks for. *)
Definition status_of (res : Response) : nat :=
  match res_Error res with
  | Some e => if decide (Code e = ErrClient) then StatusBadRequest
              else StatusInternalServerError
  | None => StatusOK
  end.

Definition is_Reader (o : Output) : bool :=
  match o with OutReader _ => true | _ => false end.

Definition is_Chan (o : Output) : bool :=
  match o with OutChan | OutRecvChan => true | _ => false end.

(** The header assignments of [sendResponse], in its order, with the
    mime type as the code updates it on the way. *)
Definition assemble_headers (h : Header) (mime : string) (req : Request)
    (res : Response) : Header :=
  let h := if decide (0 < res_Length res)%N
           then Header_Set h contentLengthHeader (fmt_d (res_Length res))
           else h in
  let '(mime, h) :=
    if is_Reader (res_Output res)
    then (EmptyString, Header_Set h streamHeader "1")
    else (mime, h) in
  let isChan := is_Chan (res_Output res) in
  let streamChans := (OptionValue_Bool (Request_Option req "stream-channels")).1.1 in
  let '(mime, h) :=
    if isChan
    then (if streamChans then applicationJson else mime,
          Header_Set h channelHeader "1")
    else (mime, h) in
  let h := if decide (mime ≠ EmptyString)
           then Header_Set h contentTypeHeader mime else h in
  Header_Set h transferEncodingHeader "chunked".

(** The mime type in force at the test [mime != ""]: the guess, blanked
    for a byte stream, forced to JSON for a streamed channel. *)
Definition final_mime (mime : string) (req : Request) (res : Response) : string :=
  let mime := if is_Reader (res_Output res) then EmptyString else mime in
  let streamChans := (OptionValue_Bool (Request_Option req "stream-channels")).1.1 in
  if is_Chan (res_Output res) && streamChans then applicationJson else mime.

Definition sendResponse (w : ResponseWriter) (r : http_Request) (req : Request)
    (res : Response) : ResponseWriter :=
  let '(mime, err) := guessMimeType res in
  match err with
  | Some e => http_Error w (Error e) StatusInternalServerError
  | None =>
      let status := status_of res in
      let '(out, err) := res_Reader res in
      match err with
      | Some e => http_Error w (Error e) StatusInternalServerError
      | None =>
          let w := with_header w (assemble_headers (header w) mime req res) in
          if decide (Method r = "HEAD") then w
          else
            let '(w, err) := writeResponse status w out in
            match err with
            | Some e => with_log w (LogError ("error while writing stream" +:+ Error e))
            | None => w
            end
      end
  end.

(** ** ServeHTTP of the internal handler *)

Definition ServeHTTP (i : internalHandler) (w : ResponseWriter) (r : http_Request)
  : ResponseWriter :=
  let w := with_log w (LogDebug "Incoming API request: ") in
  let '(req, err) := Parse r (root i) in
  match err with
  | Some e =>
      let w := if decide (e = ErrNotFound) then WriteHeader w StatusNotFound
               else WriteHeader w StatusBadRequest in
      ResponseWriter_Write w (Error e)
  | None =>
      match GetNode (ctx i) with
      | Some e =>
          http_Error w ("cmds/http: couldn't GetNode(): " +:+ Error e)
            StatusInternalServerError
      | None =>
          match SetRootContext req with
          | Some e => http_Error w (Error e) StatusInternalServerError
          | None =>
              let res := Call (root i) req in
              let w := with_header w (apply_headers (Headers (cfg i)) (header w)) in
              sendResponse w r req res
          end
      end
  end.

End Handler.

(** ** Notions used to state the properties *)

(** [b'] is [b] after it has taken all of [s]. *)
Definition took (b : Writer) (s : string) (b' : Writer) : Prop :=
  healthy b' ∧ pending b' = pending b +:+ s
  ∧ bufsize b' = bufsize b ∧ closed (wr b') = closed (wr b).

(** What the reads of a source end with: [None] for a clean end (an
    [io.EOF], or the end of the data), [Some e] for the first failure. *)
Fixpoint read_outcome (r : Reader) : option error :=
  match r with
  | [] => None
  | x :: r' =>
      match rerr x with
      | Some e => if decide (e = io_EOF) then None else Some e
      | None => read_outcome r'
      end
  end.

(** The non-empty payloads a source hands over, in order, up to and
    including the read that ends it. *)
Fixpoint delivered (r : Reader) : list string :=
  match r with
  | [] => []
  | x :: r' =>
      (if decide (0 < String.length (rdata x))%nat then [rdata x] else [])
      ++ match rerr x with
         | Some _ => []
         | None => delivered r'
         end
  end.

(** The chunk records of a list of payloads, one after the other. *)
Fixpoint chunks (l : list string) : string :=
  match l with
  | [] => EmptyString
  | d :: l' => chunk_record d +:+ chunks l'
  end.

(** A read that gives [d] and no error, and the read that gives nothing
    and [io.EOF]. *)
Definition read_ok (d : string) : ReadResult := mkRead d None.
Definition read_eof : ReadResult := mkRead EmptyString (Some io_EOF).

(** The head of a response: status line, header block, blank line. *)
Definition response_head (Header_Write : Header → string) (status : nat)
    (h : Header) : string :=
  status_line status +:+ Header_Write h +:+ CRLF.

(** The writer of [writeResponse] when the loop starts and when it ends. *)
Definition before_loop (Header_Write : Header → string) (status : nat)
    (w : ResponseWriter) : Writer :=
  discard (WriteString
    (discard (WriteString
      (discard (WriteString (rw w) (status_line status)))
      (Header_Write (header w))))
    CRLF).


(** The end of a response: terminal chunk, trailer if any, blank line. *)
Definition response_tail (streamErr : option error) : string :=
  "0" +:+ CRLF
  +:+ match streamErr with
      | Some e => trailer_line e
      | None => EmptyString
      end
  +:+ CRLF.

(** ** Reading a chunked body back, as a client does *)

(** The line up to the first CRLF, and what follows it. *)
Fixpoint read_line (s : string) : option (string * string) :=
  match s with
  | EmptyString => None
  | String c s' =>
      if decide (c = CR) then
        match s' with
        | String c' s'' => if decide (c' = LF) then Some (EmptyString, s'') else None
        | EmptyString => None
        end
      else
        match read_line s' with
        | Some (l, rest) => Some (String c l, rest)
        | None => None
        end
  end.

(** The payloads of the chunk records up to the terminal chunk, and
    what follows the terminal chunk's line. *)
Fixpoint decode_chunked (fuel : nat) (s : string) : option (list string * string) :=
  match fuel with
  | 0 => None
  | S fuel' =>
      match read_line s with
      | None => None
      | Some (l, rest) =>
          match parse_hex l with
          | None => None
          | Some 0 => Some ([], rest)
          | Some n =>
              if decide (take_s 2 (drop_s n rest) = CRLF
                         ∧ String.length (take_s n rest) = n) then
                match decode_chunked fuel' (drop_s 2 (drop_s n rest)) with
                | Some (ds, tl) => Some (take_s n rest :: ds, tl)
                | None => None
                end
              else None
          end
      end
  end.

(** ** Sample values *)

(** A wire form of a header map for the examples: one line per value. *)
Definition plain_Header_Write (h : Header) : string :=
  foldr (λ kv acc,
           foldr (λ v acc', kv.1 +:+ ": " +:+ v +:+ CRLF +:+ acc') acc kv.2)
        EmptyString (map_to_list h).

(** A fresh connection that never fails, behind a writer of 4096 bytes,
    and a response writer on it. *)
Definition sample_Writer : Writer :=
  mkWriter (mkConn EmptyString None false) 4096 EmptyString None.

Definition sample_ResponseWriter : ResponseWriter :=
  mkRW ∅ Hijackable false sample_Writer None EmptyString [].


(** Extra headers as an operator may configure them, and a header map
    as the CORS layer may leave it. *)
Definition sample_extra_headers : Header :=
  <["Access-Control-Allow-Origin" := ["*"]]> {[ "X-Served-By" := ["gateway"] ]}.

Definition sample_cors_headers : Header :=
  {[ "Access-Control-Allow-Origin" := ["http://localhost"] ]}.

Definition sample_Request (enc : string) : Request :=
  mkRequest {[ EncShort := OptString enc ]}.

Definition sample_Response (enc : string) (e : option cmds_Error) (out : Reader)
  : Response :=
  mkResponse (sample_Request enc) e OutValue 0 (out, None).

(** ** Notions for connections that may fail *)

(** [s] is an initial part of [t]. *)
Definition prefix_s (s t : string) : Prop := ∃ u, t = s +:+ u.

(** A buffer within its size. *)
Definition well_formed (b : Writer) : Prop :=
  (0 < bufsize b)%nat ∧ (String.length (buf b) ≤ bufsize b)%nat.

(** [b'] is [b] after it was offered [s]: a writer without error has
    taken all of [s], one with an error an initial part of it; what the
    connection has got is never taken back, and a writer that had an
    error already is left as it was. *)
Definition offered (b : Writer) (s : string) (b' : Writer) : Prop :=
  well_formed b'
  ∧ bufsize b' = bufsize b
  ∧ closed (wr b') = closed (wr b)
  ∧ prefix_s (wire (wr b)) (wire (wr b'))
  ∧ (∀ e, werr b = Some e → b' = b)
  ∧ match werr b' with
    | None => pending b' = pending b +:+ s
    | Some _ => prefix_s (pending b') (pending b +:+ s)
    end.

(** The loop over the operator's headers, taking the entries in the
    order [l] in which the map happens to give them. *)
Definition range_headers (l : list (string * list string)) (h : Header) : Header :=
  foldl (λ acc kv, if negb (skipAPIHeader kv.1) then <[kv.1 := kv.2]> acc else acc) h l.

(** The whole response that [writeResponse] sets out to write. *)
Definition response_bytes (Header_Write : Header → string) (status : nat)
    (h : Header) (out : Reader) : string :=
  response_head Header_Write status h
  +:+ chunks (delivered out)
  +:+ response_tail (read_outcome out).

(** Reading a decimal number back, as a client does with
    Content-Length. *)
Definition parse_d (s : string) : option N :=
  N.of_uint <$> NilEmpty.uint_of_string s.

(** * Properties *)

Local Close Scope string_scope.

(** ** Strings *)

Lemma app_s_cons (c : ascii) (s t : string) :
  String c s +:+ t = String c (s +:+ t).
Proof. reflexivity. Qed.

Lemma app_s_nil_l (s : string) : EmptyString +:+ s = s.
Proof. reflexivity. Qed.

Lemma app_s_nil_r (s : string) : s +:+ EmptyString = s.
Proof. induction s as [|c s IH]; [done|]. by rewrite app_s_cons, IH. Qed.

Lemma app_s_assoc (s t u : string) : (s +:+ t) +:+ u = s +:+ (t +:+ u).
Proof. induction s as [|c s IH]; [done|]. by rewrite !app_s_cons, IH. Qed.

(** Appends nested to the right, without empty strings. *)
Ltac norm_app :=
  repeat (rewrite app_s_assoc || rewrite app_s_nil_r || rewrite app_s_nil_l).
Tactic Notation "norm_app" "in" hyp(H) :=
  repeat (rewrite app_s_assoc in H || rewrite app_s_nil_r in H
          || rewrite app_s_nil_l in H).

Lemma length_app_s (s t : string) :
  String.length (s +:+ t) = String.length s + String.length t.
Proof. induction s as [|c s IH]; [done|]. rewrite app_s_cons. simpl. by rewrite IH. Qed.

Lemma length_zero_s (s : string) : String.length s = 0 → s = EmptyString.
Proof. by destruct s. Qed.

Lemma take_drop_s (n : nat) (s : string) : take_s n s +:+ drop_s n s = s.
Proof.
  revert s. induction n as [|n IH]; intros [|c s]; simpl; try done.
  by rewrite app_s_cons, IH.
Qed.

Lemma take_s_all (n : nat) (s : string) :
  String.length s ≤ n → take_s n s = s.
Proof.
  revert s. induction n as [|n IH]; intros [|c s]; simpl; intros Hn; try done.
  - lia.
  - f_equal. apply IH. lia.
Qed.

Lemma length_take_s (n : nat) (s : string) :
  String.length (take_s n s) = n `min` String.length s.
Proof.
  revert s. induction n as [|n IH]; intros [|c s]; simpl; try done.
  by rewrite IH.
Qed.

Lemma length_drop_s (n : nat) (s : string) :
  String.length (drop_s n s) = String.length s - n.
Proof.
  revert s. induction n as [|n IH]; intros [|c s]; simpl; try done.
Qed.

Lemma occurs_app (c : ascii) (s t : string) :
  occurs c (s +:+ t) ↔ occurs c s ∨ occurs c t.
Proof.
  induction s as [|c' s IH]; [simpl; tauto|].
  rewrite app_s_cons. simpl. rewrite IH. tauto.
Qed.

(** ** Hexadecimal sizes *)

Lemma hexdigit_val_hexdigit (d : nat) : d < 16 → hexdigit_val (hexdigit d) = Some d.
Proof.
  intros Hd. do 16 (destruct d as [|d]; [reflexivity|]). lia.
Qed.

Lemma parse_fmt_x_go (fuel u : nat) (acc : string) :
  u ≤ fuel → parse_hex_go (fmt_x_go fuel u acc) 0 = parse_hex_go acc u.
Proof.
  revert u acc. induction fuel as [|fuel IH]; intros u acc Hu;
    cbn [fmt_x_go parse_hex_go].
  - assert (u = 0) as -> by lia. reflexivity.
  - destruct (decide (16 ≤ u)) as [Hge|Hlt].
    + rewrite IH.
      * cbn [parse_hex_go].
        rewrite hexdigit_val_hexdigit by (apply Nat.mod_upper_bound; lia).
        f_equal. pose proof (Nat.div_mod_eq u 16). lia.
      * pose proof (Nat.div_lt u 16). lia.
    + cbn [parse_hex_go]. rewrite hexdigit_val_hexdigit by lia.
      f_equal.
Qed.

Lemma fmt_x_go_nonempty (fuel u : nat) (acc : string) :
  fmt_x_go fuel u acc ≠ EmptyString.
Proof.
  revert u acc. induction fuel as [|fuel IH]; intros u acc; cbn [fmt_x_go]; [done|].
  destruct (decide (16 ≤ u)); [apply IH|done].
Qed.

(** A client that reads the size of a chunk back finds the number of bytes
    that were read; in particular the digits are lowercase hexadecimal. *)
Lemma parse_hex_fmt_x (n : nat) : parse_hex (fmt_x n) = Some n.
Proof.
  unfold parse_hex. pose proof (parse_fmt_x_go n n EmptyString (le_n n)) as H.
  unfold fmt_x in *. pose proof (fmt_x_go_nonempty n n EmptyString).
  destruct (fmt_x_go n n EmptyString); [done|exact H].
Qed.

(** ** sanitizedErrStr *)

Lemma Split_nonempty (s : string) (sep : ascii) : Split s sep ≠ [].
Proof.
  destruct s as [|c s]; simpl; [done|].
  destruct (decide (c = sep)); [done|]. by destruct (Split s sep).
Qed.

Lemma index0_Split_cons (c : ascii) (s : string) (sep : ascii) :
  index0 (Split (String c s) sep)
  = if decide (c = sep) then EmptyString else String c (index0 (Split s sep)).
Proof.
  simpl. destruct (decide (c = sep)); [done|].
  pose proof (Split_nonempty s sep). by destruct (Split s sep).
Qed.

Lemma index0_Split_no_sep (s : string) (sep : ascii) :
  ¬ occurs sep (index0 (Split s sep)).
Proof.
  induction s as [|c s IH]; [simpl; tauto|].
  rewrite index0_Split_cons. destruct (decide (c = sep)); simpl; tauto.
Qed.

Lemma index0_Split_keeps_absent (s : string) (sep c : ascii) :
  ¬ occurs c s → ¬ occurs c (index0 (Split s sep)).
Proof.
  induction s as [|c' s IH]; [simpl; tauto|].
  rewrite index0_Split_cons. destruct (decide (c' = sep)); simpl; tauto.
Qed.

Lemma Split_twice_truncates (s : string) :
  index0 (Split (index0 (Split s LF)) CR) = truncate_at_first_newline_or_cr s.
Proof.
  induction s as [|c s IH]; [done|].
  rewrite index0_Split_cons. cbn [truncate_at_first_newline_or_cr].
  destruct (decide (c = LF)) as [->|Hlf].
  - rewrite decide_True by tauto. reflexivity.
  - rewrite index0_Split_cons. destruct (decide (c = CR)) as [->|Hcr].
    + rewrite decide_True by tauto. reflexivity.
    + rewrite decide_False by tauto. by rewrite IH.
Qed.

(** ** skipAPIHeader *)

Lemma skipAPIHeader_true (h : string) :
  skipAPIHeader h = true ↔ h ∈ reserved_cors_headers.
Proof.
  unfold skipAPIHeader, reserved_cors_headers. rewrite !elem_of_cons, elem_of_nil.
  repeat case_decide; intuition congruence.
Qed.

Lemma skipAPIHeader_false (h : string) :
  skipAPIHeader h = false ↔ h ∉ reserved_cors_headers.
Proof.
  rewrite <- skipAPIHeader_true. destruct (skipAPIHeader h); split; congruence.
Qed.

(** What the loop over the operator's headers leaves under each key. *)
Lemma apply_headers_lookup (extra h : Header) (k : string) :
  apply_headers extra h !! k
  = if skipAPIHeader k then h !! k
    else match extra !! k with
         | Some v => Some v
         | None => h !! k
         end.
Proof.
  unfold apply_headers.
  apply (map_fold_weak_ind (λ acc m,
    acc !! k = if skipAPIHeader k then h !! k
               else match m !! k with Some v => Some v | None => h !! k end)).
  - rewrite lookup_empty. by destruct (skipAPIHeader k).
  - intros i x m acc Hi IH.
    destruct (decide (i = k)) as [->|Hne].
    + rewrite lookup_insert_eq. destruct (skipAPIHeader k); simpl; [done|].
      by rewrite lookup_insert_eq.
    + rewrite (lookup_insert_ne m) by done.
      destruct (skipAPIHeader i); simpl; [done|].
      by rewrite lookup_insert_ne.
Qed.

(** ** The buffered writer on a connection that never fails *)

Lemma took_refl (b : Writer) : healthy b → took b EmptyString b.
Proof. intros H. unfold took. by rewrite app_s_nil_r. Qed.

Lemma took_trans (b1 b2 b3 : Writer) (s t : string) :
  took b1 s b2 → took b2 t b3 → took b1 (s +:+ t) b3.
Proof.
  intros (_ & Hp1 & Hs1 & Hc1) (Hh & Hp2 & Hs2 & Hc2). unfold took.
  rewrite Hp2, Hp1, app_s_assoc. split_and!; [done|congruence..].
Qed.

Lemma Flush_healthy (b : Writer) :
  healthy b →
  (Flush b).2 = None ∧ took b EmptyString (Flush b).1 ∧ buf (Flush b).1 = EmptyString.
Proof.
  destruct b as [[wi br cl] sz bf we]. unfold healthy, took, pending, Flush, Buffered.
  simpl. intros (-> & -> & Hsz & Hlen).
  destruct (decide (String.length bf = 0)) as [Hz|Hnz]; simpl.
  - apply length_zero_s in Hz as ->. by rewrite !app_s_nil_r.
  - unfold conn_Write. simpl.
    destruct (decide (String.length bf < String.length bf)); [lia|]. simpl.
    unfold healthy. simpl. rewrite !app_s_nil_r. split_and!; try done; lia.
Qed.

Lemma copy_in_fits (b : Writer) (s : string) :
  healthy b → String.length s ≤ Available b →
  took b s (copy_in b s).1.
Proof.
  destruct b as [[wi br cl] sz bf we]. unfold healthy, took, pending, copy_in, Available.
  simpl. intros (-> & -> & Hsz & Hlen) Hfit.
  rewrite Nat.min_r by lia. rewrite take_s_all by lia.
  unfold healthy. simpl. rewrite length_app_s, app_s_assoc.
  split_and!; try done; lia.
Qed.

(** Filling the buffer to the brim and flushing it. *)
Lemma copy_in_Flush_healthy (b : Writer) (s : string) :
  healthy b → Available b < String.length s →
  let b' := (Flush (copy_in b s).1).1 in
  took b (take_s (Available b) s) b' ∧ buf b' = EmptyString
  ∧ (copy_in b s).2 = Available b.
Proof.
  intros Hb Hlt.
  assert (healthy (copy_in b s).1 ∧ pending (copy_in b s).1
            = pending b +:+ take_s (Available b) s
          ∧ bufsize (copy_in b s).1 = bufsize b
          ∧ closed (wr (copy_in b s).1) = closed (wr b)
          ∧ (copy_in b s).2 = Available b) as (Hh & Hp & Hs & Hc & Hn).
  { destruct b as [[wi br cl] sz bf we].
    unfold healthy, pending, copy_in, Available in *. simpl in *.
    destruct Hb as (-> & -> & Hsz & Hlen).
    rewrite Nat.min_l by lia. rewrite length_app_s, length_take_s, app_s_assoc.
    split_and!; try done; lia. }
  destruct (Flush_healthy _ Hh) as (_ & (Hh' & Hp' & Hs' & Hc') & Hbuf).
  cbv zeta. unfold took. rewrite Hp', app_s_nil_r, Hp.
  split_and!; [done|congruence..|done|done].
Qed.

Lemma WriteString_loop_healthy (fuel : nat) (b : Writer) (s : string) (nn : nat) :
  healthy b →
  2 * String.length s + (if decide (Available b = 0) then 1 else 0) ≤ fuel →
  ∃ b1 s1 nn1, WriteString_loop fuel b s nn = (b1, s1, nn1)
    ∧ healthy b1 ∧ pending b1 +:+ s1 = pending b +:+ s
    ∧ String.length s1 ≤ Available b1
    ∧ bufsize b1 = bufsize b ∧ closed (wr b1) = closed (wr b).
Proof.
  revert b s nn. induction fuel as [|fuel IH]; intros b s nn Hb Hfuel.
  - exists b, s, nn. simpl. case_decide; split_and!; try done; lia.
  - cbn [WriteString_loop].
    destruct (decide (Available b < String.length s ∧ werr b = None)) as [[Hlt _]|Hno].
    + destruct (copy_in_Flush_healthy b s Hb Hlt) as ((Hh & Hp & Hs & Hc) & Hbuf & Hn).
      destruct (copy_in b s) as [b1 n] eqn:Hcopy. simpl in *. subst n.
      destruct (IH (Flush b1).1 (drop_s (Available b) s) (nn + Available b) Hh)
        as (b2 & s2 & nn2 & Hloop & Hh2 & Hp2 & Hfit & Hs2 & Hc2).
      { rewrite length_drop_s.
        assert (Available (Flush b1).1 = bufsize b) as ->
          by (unfold Available; rewrite Hbuf, Hs; simpl; lia).
        destruct Hb as (_ & _ & Hpos & _).
        destruct (decide (bufsize b = 0)); [lia|].
        destruct (decide (Available b = 0)); lia. }
      exists b2, s2, nn2. rewrite Hloop, Hp2, Hp, app_s_assoc, take_drop_s.
      split_and!; [done|done|congruence..].
    + exists b, s, nn. destruct Hb as (Hbr & Hwe & Hrest).
      split_and!; try done. apply not_and_l in Hno as [Hno|Hno]; [lia|done].
Qed.

Lemma WriteString_healthy (b : Writer) (s : string) :
  healthy b →
  (WriteString b s).2 = None ∧ took b s (discard (WriteString b s)).
Proof.
  intros Hb. unfold WriteString, discard.
  destruct (WriteString_loop_healthy (2 * String.length s + 2) b s 0 Hb)
    as (b1 & s1 & nn1 & -> & Hh & Hp & Hfit & Hs & Hc).
  { case_decide; lia. }
  pose proof Hh as (_ & -> & _).
  pose proof (copy_in_fits b1 s1 Hh Hfit) as (Hh' & Hp' & Hs' & Hc').
  destruct (copy_in b1 s1) as [b2 n]. simpl in *.
  unfold took. rewrite Hp', Hp. split_and!; [done|congruence..].
Qed.

Lemma Write_loop_healthy (fuel : nat) (b : Writer) (p : string) (nn : nat) :
  healthy b →
  (if decide (String.length p ≤ Available b) then 0
   else if decide (Buffered b = 0) then 1 else 2) ≤ fuel →
  ∃ b1 p1 nn1, Write_loop fuel b p nn = (b1, p1, nn1)
    ∧ healthy b1 ∧ pending b1 +:+ p1 = pending b +:+ p
    ∧ String.length p1 ≤ Available b1
    ∧ bufsize b1 = bufsize b ∧ closed (wr b1) = closed (wr b).
Proof.
  revert b p nn. induction fuel as [|fuel IH]; intros b p nn Hb Hfuel.
  - exists b, p, nn. simpl. repeat case_decide; split_and!; try done; lia.
  - cbn [Write_loop].
    destruct (decide (Available b < String.length p ∧ werr b = None)) as [[Hlt _]|Hno].
    + rewrite decide_False in Hfuel by lia.
      destruct (decide (Buffered b = 0)) as [Hz|Hnz].
      * (* the buffer is empty: the whole of [p] goes to the connection *)
        destruct b as [[wi br cl] sz bf we].
        destruct Hb as (Hbr & Hwe & Hsz & Hlen). unfold Buffered in Hz.
        simpl in Hbr, Hwe, Hsz, Hlen, Hz. subst br we.
        apply length_zero_s in Hz as ->. unfold conn_Write.
        cbn [wr breaks wire closed bufsize buf].
        destruct (IH (mkWriter (mkConn (wi +:+ p) None cl) sz EmptyString None)
                    (drop_s (String.length p) p) (nn + String.length p))
          as (b2 & p2 & nn2 & Hloop & Hh2 & Hp2 & Hfit & Hs2 & Hc2).
        { unfold healthy. simpl. split_and!; try done; lia. }
        { rewrite length_drop_s, Nat.sub_diag.
          destruct (decide (0 ≤ Available
            (mkWriter (mkConn (wi +:+ p) None cl) sz EmptyString None))); lia. }
        exists b2, p2, nn2. rewrite Hloop, Hp2. unfold pending. simpl in *.
        assert (drop_s (String.length p) p = EmptyString) as ->.
        { apply length_zero_s. rewrite length_drop_s. lia. }
        rewrite !app_s_nil_r. split_and!; done.
      * destruct (copy_in_Flush_healthy b p Hb Hlt) as ((Hh & Hp & Hs & Hc) & Hbuf & Hn).
        destruct (copy_in b p) as [b1 n] eqn:Hcopy. simpl in *. subst n.
        destruct (IH (Flush b1).1 (drop_s (Available b) p) (nn + Available b) Hh)
          as (b2 & p2 & nn2 & Hloop & Hh2 & Hp2 & Hfit & Hs2 & Hc2).
        { unfold Buffered. rewrite Hbuf. simpl.
          destruct (decide (String.length (drop_s (Available b) p)
                            ≤ Available (Flush b1).1)); lia. }
        exists b2, p2, nn2. rewrite Hloop, Hp2, Hp, app_s_assoc, take_drop_s.
        split_and!; [done|done|congruence..].
    + exists b, p, nn. destruct Hb as (Hbr & Hwe & Hrest).
      split_and!; try done. apply not_and_l in Hno as [Hno|Hno]; [lia|done].
Qed.

Lemma Write_healthy (b : Writer) (p : string) :
  healthy b →
  (Write b p).2 = None ∧ took b p (discard (Write b p)).
Proof.
  intros Hb. unfold Write, discard.
  destruct (Write_loop_healthy (2 * String.length p + 2) b p 0 Hb)
    as (b1 & p1 & nn1 & -> & Hh & Hp & Hfit & Hs & Hc).
  { repeat case_decide; lia. }
  pose proof Hh as (_ & -> & _).
  pose proof (copy_in_fits b1 p1 Hh Hfit) as (Hh' & Hp' & Hs' & Hc').
  destruct (copy_in b1 p1) as [b2 n]. simpl in *.
  unfold took. rewrite Hp', Hp. split_and!; [done|congruence..].
Qed.

(** ** The buffered writer after an error *)

Lemma copy_in_werr (b : Writer) (s : string) : werr (copy_in b s).1 = werr b.
Proof. reflexivity. Qed.

(** [WriteString] and [Write] return the error the writer holds. *)
Lemma WriteString_err (b : Writer) (s : string) :
  (WriteString b s).2 = werr (discard (WriteString b s)).
Proof.
  unfold WriteString, discard.
  destruct (WriteString_loop _ b s 0) as [[b1 s1] nn].
  destruct (werr b1) eqn:E; simpl; [done|].
  destruct (copy_in b1 s1) as [b2 n] eqn:Hc. simpl.
  pose proof (copy_in_werr b1 s1) as H. rewrite Hc in H. simpl in H. congruence.
Qed.

Lemma Write_err (b : Writer) (p : string) :
  (Write b p).2 = werr (discard (Write b p)).
Proof.
  unfold Write, discard.
  destruct (Write_loop _ b p 0) as [[b1 p1] nn].
  destruct (werr b1) eqn:E; simpl; [done|].
  destruct (copy_in b1 p1) as [b2 n] eqn:Hc. simpl.
  pose proof (copy_in_werr b1 p1) as H. rewrite Hc in H. simpl in H. congruence.
Qed.

(** Once the error is set the writer takes nothing more. *)
Lemma WriteString_failed (b : Writer) (s : string) (e : error) :
  werr b = Some e → WriteString b s = (b, 0, Some e).
Proof.
  intros He. unfold WriteString.
  replace (2 * String.length s + 2) with (S (2 * String.length s + 1)) by lia.
  cbn [WriteString_loop]. rewrite decide_False by (rewrite He; intros [_ ?]; done).
  by rewrite He.
Qed.

Lemma Write_failed (b : Writer) (p : string) (e : error) :
  werr b = Some e → Write b p = (b, 0, Some e).
Proof.
  intros He. unfold Write.
  replace (2 * String.length p + 2) with (S (2 * String.length p + 1)) by lia.
  cbn [Write_loop]. rewrite decide_False by (rewrite He; intros [_ ?]; done).
  by rewrite He.
Qed.

Lemma Flush_failed (b : Writer) (e : error) :
  werr b = Some e → Flush b = (b, Some e).
Proof. intros He. unfold Flush. by rewrite He. Qed.

(** ** The loop of writeChunks *)

Lemma chunks_app (l1 l2 : list string) :
  chunks (l1 ++ l2) = chunks l1 +:+ chunks l2.
Proof.
  induction l1 as [|d l1 IH]; [done|]. simpl. by rewrite IH, app_s_assoc.
Qed.

(** A source at the end of its data behaves as one that reports
    [io.EOF]. *)
Lemma writeChunks_nil (w : Writer) :
  writeChunks [] w = (w, None) ∧ writeChunks_step (Read []).1 w = (w, Return None).
Proof. done. Qed.

(** One turn of the loop on a connection that never fails. *)
Lemma writeChunks_step_healthy (x : ReadResult) (w : Writer) :
  healthy w →
  took w (chunks (if decide (0 < String.length (rdata x)) then [rdata x] else []))
       (writeChunks_step x w).1
  ∧ (writeChunks_step x w).2
    = match rerr x with
      | Some e => if decide (e = io_EOF) then Return None else Return (Some e)
      | None => Continue
      end.
Proof.
  intros Hw. unfold writeChunks_step.
  destruct (decide (0 < String.length (rdata x))) as [Hn|Hn].
  - destruct (WriteString_healthy w (fmt_x (String.length (rdata x)) +:+ CRLF) Hw)
      as (_ & Ht1).
    set (w1 := discard (WriteString w _)) in *.
    destruct (Write_healthy w1 (rdata x)) as (He2 & Ht2); [apply Ht1|].
    unfold discard in Ht2. destruct (Write w1 (rdata x)) as [[w2 k] e2].
    simpl in He2, Ht2. subst e2.
    destruct (WriteString_healthy w2 CRLF) as (_ & Ht3); [apply Ht2|].
    set (w3 := discard (WriteString w2 CRLF)) in *.
    destruct (Flush_healthy w3) as (_ & Ht4 & _); [apply Ht3|].
    assert (took w (chunks [rdata x]) (Flush w3).1) as Ht.
    { pose proof (took_trans _ _ _ _ _ (took_trans _ _ _ _ _
        (took_trans _ _ _ _ _ Ht1 Ht2) Ht3) Ht4) as Ht.
      simpl. unfold chunk_record.
      by rewrite !app_s_assoc, !app_s_nil_r in *. }
    destruct (rerr x) as [e|]; [destruct (decide (e = io_EOF))|]; done.
  - destruct (rerr x) as [e|]; [destruct (decide (e = io_EOF))|]; simpl;
      (split; [by apply took_refl|done]).
Qed.

(** The whole loop on a connection that never fails: every non-empty
    read becomes one chunk record, in order, and the loop returns what
    the reads ended with. *)
Lemma writeChunks_healthy (r : Reader) (w : Writer) :
  healthy w →
  took w (chunks (delivered r)) (writeChunks r w).1
  ∧ (writeChunks r w).2 = read_outcome r.
Proof.
  revert w. induction r as [|x r IH]; intros w Hw.
  - split; [by apply took_refl|done].
  - cbn [writeChunks delivered read_outcome].
    destruct (writeChunks_step_healthy x w Hw) as (Ht & Hs).
    destruct (writeChunks_step x w) as [w1 st]. simpl in Ht, Hs. subst st.
    rewrite chunks_app.
    destruct (rerr x) as [e|].
    + simpl. rewrite app_s_nil_r. by destruct (decide (e = io_EOF)).
    + destruct (IH w1) as (Ht' & Hs'); [apply Ht|].
      split; [by eapply took_trans|done].
Qed.

(** One turn of the loop on any connection: it returns an error either
    because the read failed or because the payload could not be written. *)
Lemma writeChunks_step_Return (x : ReadResult) (w w' : Writer) (res : option error) :
  writeChunks_step x w = (w', Return res) →
  (∃ e, rerr x = Some e ∧ res = (if decide (e = io_EOF) then None else Some e))
  ∨ (∃ e, res = Some e ∧ werr w' = Some e ∧ rdata x ≠ EmptyString).
Proof.
  unfold writeChunks_step.
  destruct (decide (0 < String.length (rdata x))) as [Hn|Hn].
  - pose proof (Write_err (discard (WriteString w (fmt_x (String.length (rdata x)) +:+ CRLF)))
                  (rdata x)) as He.
    unfold discard at 2 in He.
    destruct (Write _ (rdata x)) as [[w2 k] e2]. simpl in He.
    destruct e2 as [e|].
    + intros [= <- <-]. right. exists e. split_and!; [done|done|].
      intros Hd. rewrite Hd in Hn. simpl in Hn. lia.
    + destruct (rerr x) as [e|]; [|done].
      intros H. left. exists e. split; [done|].
      destruct (decide (e = io_EOF)); by inversion H.
  - destruct (rerr x) as [e|]; [|done].
    intros H. left. exists e. split; [done|].
    destruct (decide (e = io_EOF)); by inversion H.
Qed.

Lemma writeChunks_step_Continue (x : ReadResult) (w w' : Writer) :
  writeChunks_step x w = (w', Continue) → rerr x = None.
Proof.
  unfold writeChunks_step.
  destruct (decide (0 < String.length (rdata x))) as [Hn|Hn].
  - destruct (Write _ (rdata x)) as [[w2 k] [e|]]; [done|].
    destruct (rerr x) as [e|]; [destruct (decide (e = io_EOF))|]; done.
  - destruct (rerr x) as [e|]; [destruct (decide (e = io_EOF))|]; done.
Qed.

(** The whole loop on any connection: it returns what the reads ended
    with, unless the write of a payload failed before that; then it
    returns the error of that write, which the writer holds. *)
Lemma writeChunks_returns (r : Reader) (w : Writer) :
  (writeChunks r w).2 = read_outcome r
  ∨ ∃ e, (writeChunks r w).2 = Some e ∧ werr (writeChunks r w).1 = Some e.
Proof.
  revert w. induction r as [|x r IH]; intros w; [by left|].
  cbn [writeChunks read_outcome].
  destruct (writeChunks_step x w) as [w1 [|res]] eqn:Hstep.
  - rewrite (writeChunks_step_Continue _ _ _ Hstep). apply IH.
  - apply writeChunks_step_Return in Hstep as [(e & -> & ->)|(e & -> & He & _)].
    + by left.
    + right. by exists e.
Qed.

(** ** writeResponse *)

Section WriteResponse.

Variable Header_Write : Header → string.

Lemma writeResponse_hijacked (status : nat) (w : ResponseWriter) (out : Reader) :
  hijack w = Hijackable →
  (writeResponse Header_Write status w out).2
  = (writeChunks out (before_loop Header_Write status w)).2
  ∧ hijacked (writeResponse Header_Write status w out).1 = true
  ∧ closed (wr (rw (writeResponse Header_Write status w out).1)) = true
  ∧ header (writeResponse Header_Write status w out).1 = header w
  ∧ sent_status (writeResponse Header_Write status w out).1 = sent_status w
  ∧ sent_body (writeResponse Header_Write status w out).1 = sent_body w
  ∧ log (writeResponse Header_Write status w out).1 = log w.
Proof.
  intros Hh. unfold writeResponse. rewrite Hh. fold (before_loop Header_Write status w).
  by destruct (writeChunks out (before_loop Header_Write status w)) as [wl res].
Qed.

Lemma before_loop_healthy (status : nat) (w : ResponseWriter) :
  healthy (rw w) →
  took (rw w) (response_head Header_Write status (header w))
       (before_loop Header_Write status w).
Proof.
  intros Hw. unfold before_loop, response_head.
  destruct (WriteString_healthy (rw w) (status_line status) Hw) as (_ & H1).
  destruct (WriteString_healthy _ (Header_Write (header w)) (proj1 H1)) as (_ & H2).
  destruct (WriteString_healthy _ CRLF (proj1 H2)) as (_ & H3).
  pose proof (took_trans _ _ _ _ _ (took_trans _ _ _ _ _ H1 H2) H3) as H.
  by rewrite app_s_assoc in H.
Qed.

(** The response on a connection that never fails. *)
Lemma writeResponse_healthy (status : nat) (w : ResponseWriter) (out : Reader) :
  hijack w = Hijackable → healthy (rw w) →
  (writeResponse Header_Write status w out).2 = read_outcome out
  ∧ wire (wr (rw (writeResponse Header_Write status w out).1))
    = pending (rw w)
      +:+ response_head Header_Write status (header w)
      +:+ chunks (delivered out)
      +:+ response_tail (read_outcome out)
  ∧ buf (rw (writeResponse Header_Write status w out).1) = EmptyString.
Proof.
  intros Hh Hw. unfold writeResponse. rewrite Hh.
  fold (before_loop Header_Write status w).
  pose proof (before_loop_healthy status w Hw) as H0.
  destruct (writeChunks_healthy out _ (proj1 H0)) as (H1 & Hres).
  destruct (writeChunks out (before_loop Header_Write status w)) as [wl res].
  simpl in H1, Hres. subst res.
  destruct (WriteString_healthy wl ("0" +:+ CRLF)%string (proj1 H1)) as (_ & H2).
  set (w2 := discard (WriteString wl _)) in *.
  assert (∃ w3, w3 = match read_outcome out with
                     | Some e => discard (WriteString w2 (trailer_line e))
                     | None => w2
                     end
                ∧ took w2 match read_outcome out with
                          | Some e => trailer_line e
                          | None => EmptyString
                          end w3) as (w3 & <- & H3).
  { eexists. split; [reflexivity|]. destruct (read_outcome out) as [e|].
    - apply WriteString_healthy, H2.
    - apply took_refl, H2. }
  destruct (WriteString_healthy w3 CRLF (proj1 H3)) as (_ & H4).
  set (w4 := discard (WriteString w3 CRLF)) in *.
  destruct (Flush_healthy w4 (proj1 H4)) as (_ & H5 & Hbuf).
  pose proof (took_trans _ _ _ _ _ (took_trans _ _ _ _ _ (took_trans _ _ _ _ _
    (took_trans _ _ _ _ _ (took_trans _ _ _ _ _ H0 H1) H2) H3) H4) H5)
    as (_ & Hp & _ & _).
  simpl. split_and!; [done| |done].
  unfold pending at 1 in Hp. rewrite Hbuf, app_s_nil_r in Hp. rewrite Hp.
  unfold response_tail. by rewrite !app_s_assoc, !app_s_nil_r.
Qed.


End WriteResponse.

(** ** Reading the chunk records back *)

Lemma hexdigit_not_CR (d : nat) : hexdigit d ≠ CR.
Proof. do 15 (destruct d as [|d]; [discriminate|]). discriminate. Qed.

Lemma fmt_x_go_no_CR (fuel u : nat) (acc : string) :
  ¬ occurs CR acc → ¬ occurs CR (fmt_x_go fuel u acc).
Proof.
  revert u acc. induction fuel as [|fuel IH]; intros u acc Hacc; cbn [fmt_x_go].
  - simpl. pose proof (hexdigit_not_CR u). tauto.
  - destruct (decide (16 ≤ u)).
    + apply IH. simpl. pose proof (hexdigit_not_CR (u `mod` 16)). tauto.
    + simpl. pose proof (hexdigit_not_CR u). tauto.
Qed.

Lemma fmt_x_no_CR (n : nat) : ¬ occurs CR (fmt_x n).
Proof. apply fmt_x_go_no_CR. simpl. tauto. Qed.

Lemma read_line_app (l rest : string) :
  ¬ occurs CR l → read_line (l +:+ CRLF +:+ rest) = Some (l, rest).
Proof.
  induction l as [|c l IH]; intros Hl.
  - reflexivity.
  - rewrite app_s_cons. cbn [read_line]. simpl in Hl.
    rewrite decide_False by (intros ->; tauto).
    rewrite IH by tauto. reflexivity.
Qed.

Lemma take_s_app (d rest : string) : take_s (String.length d) (d +:+ rest) = d.
Proof. induction d as [|c d IH]; [by destruct rest|]. rewrite app_s_cons. simpl. by rewrite IH. Qed.

Lemma drop_s_app (d rest : string) : drop_s (String.length d) (d +:+ rest) = rest.
Proof. induction d as [|c d IH]; [by destruct rest|]. rewrite app_s_cons. simpl. by rewrite IH. Qed.

(** A client that decodes the chunk records of non-empty payloads
    followed by the terminal chunk finds exactly these payloads. *)
Lemma decode_chunked_chunks (ds : list string) (tl : string) :
  Forall (λ d, d ≠ EmptyString) ds →
  decode_chunked (S (List.length ds)) (chunks ds +:+ "0" +:+ CRLF +:+ tl) = Some (ds, tl).
Proof.
  induction ds as [|d ds IH]; intros Hne.
  - reflexivity.
  - apply Forall_cons in Hne as [Hd Hds].
    cbn [chunks List.length]. unfold chunk_record. rewrite !app_s_assoc.
    cbn [decode_chunked]. rewrite read_line_app by apply fmt_x_no_CR.
    rewrite parse_hex_fmt_x.
    destruct (String.length d) as [|k] eqn:Hlen.
    { by apply length_zero_s in Hlen. }
    rewrite <- Hlen, take_s_app, drop_s_app.
    rewrite decide_True by done.
    change (drop_s 2 (CRLF +:+ ?s)) with s. cbv beta.
    specialize (IH Hds). cbn [decode_chunked] in IH. by rewrite IH.
Qed.

(** ** Sources that end cleanly *)

Lemma length_pos_s (d : string) : d ≠ EmptyString → 0 < String.length d.
Proof. destruct d; [done|simpl; lia]. Qed.

Lemma delivered_until (ds : list string) (x : ReadResult) (rest : Reader) :
  Forall (λ d, d ≠ EmptyString) ds →
  rerr x ≠ None →
  delivered ((read_ok <$> ds) ++ x :: rest)
  = ds ++ (if decide (0 < String.length (rdata x)) then [rdata x] else []).
Proof.
  induction ds as [|d ds IH]; intros Hne Hx.
  - cbn [fmap list_fmap app delivered]. destruct (rerr x); [|done].
    by rewrite app_nil_r.
  - apply Forall_cons in Hne as [Hd Hds]. rewrite fmap_cons. cbn [app delivered].
    cbn [read_ok rdata rerr]. rewrite decide_True by by apply length_pos_s.
    simpl. f_equal. by apply IH.
Qed.

Lemma read_outcome_until (ds : list string) (x : ReadResult) (rest : Reader) :
  rerr x ≠ None →
  read_outcome ((read_ok <$> ds) ++ x :: rest) = read_outcome [x].
Proof.
  intros Hx. induction ds as [|d ds IH]; [|exact IH].
  simpl. by destruct (rerr x).
Qed.

Lemma delivered_clean (ds : list string) (rest : Reader) :
  Forall (λ d, d ≠ EmptyString) ds →
  delivered ((read_ok <$> ds) ++ read_eof :: rest) = ds.
Proof.
  intros Hne. rewrite delivered_until by done. simpl. by rewrite app_nil_r.
Qed.

Lemma read_outcome_clean (ds : list string) (rest : Reader) :
  read_outcome ((read_ok <$> ds) ++ read_eof :: rest) = None.
Proof. by rewrite read_outcome_until. Qed.


Lemma delivered_skips_empty_read (r : Reader) :
  delivered (read_ok EmptyString :: r) = delivered r.
Proof. reflexivity. Qed.

(** * The properties of the specification *)

(** C1.  For every body source that yields N non-empty reads and then a
    clean end-of-source, [writeResponse] emits onto the hijacked
    connection (one that accepts the writes), after the status line and
    the header block, exactly the N chunk records of these reads in read
    order, each one the lowercase hexadecimal size, CRLF, the payload,
    CRLF, with the size equal to the byte count of the read, then exactly
    one terminal ["0" CRLF], no trailer line, and a final CRLF; it returns
    no error, and a client that decodes the body finds the N payloads.
    The same bytes result when the last of the N reads carries the
    [io.EOF] itself. *)
Theorem C1_chunk_records_for_clean_source
    (Header_Write : Header → string) (status : nat) (w : ResponseWriter)
    (ds : list string) (rest : Reader) :
  hijack w = Hijackable →
  healthy (rw w) →
  Forall (λ d, d ≠ EmptyString) ds →
  let out := (read_ok <$> ds) ++ read_eof :: rest in
  let r := writeResponse Header_Write status w out in
  r.2 = None
  ∧ wire (wr (rw r.1))
    = pending (rw w)
      +:+ status_line status +:+ Header_Write (header w) +:+ CRLF
      +:+ chunks ds
      +:+ "0" +:+ CRLF
      +:+ CRLF
  ∧ List.length (chunk_record <$> ds) = List.length ds
  ∧ (∀ d, d ∈ ds →
       chunk_record d = fmt_x (String.length d) +:+ CRLF +:+ d +:+ CRLF
       ∧ parse_hex (fmt_x (String.length d)) = Some (String.length d))
  ∧ decode_chunked (S (List.length ds)) (chunks ds +:+ "0" +:+ CRLF +:+ CRLF)
    = Some (ds, CRLF)
  ∧ (∀ ds' d, ds = ds' ++ [d] →
       let r' := writeResponse Header_Write status w
                   ((read_ok <$> ds') ++ mkRead d (Some io_EOF) :: rest) in
       r'.2 = None ∧ wire (wr (rw r'.1)) = wire (wr (rw r.1))).
Proof.
  intros Hh Hw Hne out r.
  destruct (writeResponse_healthy Header_Write status w out Hh Hw) as (Hres & Hwire & _).
  subst r out. rewrite read_outcome_clean in Hres, Hwire.
  rewrite delivered_clean in Hwire by done.
  split_and!.
  - exact Hres.
  - rewrite Hwire. unfold response_head, response_tail.
    by rewrite !app_s_assoc.
  - by rewrite length_fmap.
  - intros d _. split; [reflexivity|apply parse_hex_fmt_x].
  - by apply decode_chunked_chunks.
  - intros ds' d -> r'. subst r'. apply Forall_app in Hne as [Hne' Hd].
    apply Forall_inv in Hd.
    destruct (writeResponse_healthy Header_Write status w
                ((read_ok <$> ds') ++ mkRead d (Some io_EOF) :: rest) Hh Hw)
      as (Hres' & Hwire' & _).
    rewrite read_outcome_until in Hres', Hwire' by done.
    rewrite delivered_until in Hwire' by done. simpl in Hres', Hwire'.
    rewrite decide_True in Hwire' by by apply length_pos_s.
    split; [exact Hres'|]. by rewrite Hwire', Hwire.
Qed.

(** A source of two reads on a fresh connection. *)
Lemma C1_witness :
  hijack sample_ResponseWriter = Hijackable
  ∧ healthy (rw sample_ResponseWriter)
  ∧ Forall (λ d, d ≠ EmptyString) ["hello"; "chunked world"]%string
  ∧ let r := writeResponse plain_Header_Write 200 sample_ResponseWriter
               [read_ok "hello"; read_ok "chunked world"; read_eof] in
    r.2 = None
    ∧ wire (wr (rw r.1))
      = ("HTTP/1.1 200 OK" +:+ CRLF +:+ CRLF
         +:+ "5" +:+ CRLF +:+ "hello" +:+ CRLF
         +:+ "d" +:+ CRLF +:+ "chunked world" +:+ CRLF
         +:+ "0" +:+ CRLF +:+ CRLF)%string.
Proof.
  assert (healthy (rw sample_ResponseWriter)) as Hw.
  { unfold healthy. simpl. split_and!; [done|done|lia|lia]. }
  assert (Forall (λ d, d ≠ EmptyString) ["hello"; "chunked world"]%string) as Hne.
  { repeat constructor; discriminate. }
  split_and!; [done|done|done|].
  pose proof (C1_chunk_records_for_clean_source plain_Header_Write 200
                sample_ResponseWriter ["hello"; "chunked world"]%string []
                eq_refl Hw Hne) as (H1 & H2 & _).
  split; [exact H1|]. etrans; [exact H2|]. reflexivity.
Defined.

(** C4.  In the chunk-writing loop a read of 0 bytes with a nil error
    writes nothing and does not end the loop; on a connection that
    accepts the writes only a read that carries [io.EOF] or another error
    ends it.  So reads of 10, 0 and 5 bytes followed by EOF give exactly
    the two chunk records with sizes "a" and "5", and a source without
    any data still gives the head of the response, the terminal
    ["0" CRLF] and the closing blank line. *)
Theorem C4_empty_read_does_not_end_the_loop
    (Header_Write : Header → string) (status : nat) (w : ResponseWriter) :
  hijack w = Hijackable →
  healthy (rw w) →
  (∀ b, writeChunks_step (read_ok EmptyString) b = (b, Continue))
  ∧ (∀ r b, writeChunks (read_ok EmptyString :: r) b = writeChunks r b)
  ∧ (∀ x b, healthy b → (writeChunks_step x b).2 = Continue ↔ rerr x = None)
  ∧ (∀ d1 d2 rest, String.length d1 = 10 → String.length d2 = 5 →
       let r := writeResponse Header_Write status w
                  ([read_ok d1; read_ok EmptyString; read_ok d2; read_eof] ++ rest) in
       r.2 = None
       ∧ wire (wr (rw r.1))
         = pending (rw w)
           +:+ status_line status +:+ Header_Write (header w) +:+ CRLF
           +:+ "a" +:+ CRLF +:+ d1 +:+ CRLF
           +:+ "5" +:+ CRLF +:+ d2 +:+ CRLF
           +:+ "0" +:+ CRLF +:+ CRLF
       ∧ decode_chunked 3 ("a" +:+ CRLF +:+ d1 +:+ CRLF
                           +:+ "5" +:+ CRLF +:+ d2 +:+ CRLF
                           +:+ "0" +:+ CRLF +:+ CRLF)
         = Some ([d1; d2], CRLF))
  ∧ (∀ out, out = [] ∨ (∃ rest, out = read_eof :: rest) →
       let r := writeResponse Header_Write status w out in
       r.2 = None
       ∧ wire (wr (rw r.1))
         = pending (rw w)
           +:+ status_line status +:+ Header_Write (header w) +:+ CRLF
           +:+ "0" +:+ CRLF +:+ CRLF).
Proof.
  intros Hh Hw. split_and!.
  - reflexivity.
  - reflexivity.
  - intros x b Hb. destruct (writeChunks_step_healthy x b Hb) as (_ & ->).
    destruct (rerr x) as [e|]; [|done].
    destruct (decide (e = io_EOF)); split; done.
  - intros d1 d2 rest H1 H2 r. subst r.
    destruct (writeResponse_healthy Header_Write status w
                ([read_ok d1; read_ok EmptyString; read_ok d2; read_eof] ++ rest) Hh Hw)
      as (Hres & Hwire & _).
    assert (d1 ≠ EmptyString ∧ d2 ≠ EmptyString) as [Hd1 Hd2].
    { split; intros ->; simpl in *; lia. }
    assert (delivered ([read_ok d1; read_ok EmptyString; read_ok d2; read_eof] ++ rest)
            = [d1; d2]) as Hd.
    { cbn [app delivered read_ok read_eof rdata rerr]. rewrite H1, H2.
      destruct (decide (0 < 10)); [|lia]. destruct (decide (0 < 5)); [|lia].
      reflexivity. }
    rewrite Hd in Hwire.
    change (read_outcome ([read_ok d1; read_ok EmptyString; read_ok d2; read_eof] ++ rest))
      with (@None error) in Hres, Hwire.
    pose proof (decode_chunked_chunks [d1; d2] CRLF) as Hdec.
    cbn [chunks List.length] in Hwire, Hdec. unfold chunk_record in Hwire, Hdec.
    rewrite H1, H2 in Hwire, Hdec.
    change (fmt_x 10) with "a"%string in Hwire, Hdec.
    change (fmt_x 5) with "5"%string in Hwire, Hdec.
    unfold response_head, response_tail in Hwire.
    norm_app in Hwire. norm_app in Hdec.
    split_and!; [done|done|].
    apply Hdec. repeat constructor; done.
  - intros out Hout r. subst r.
    destruct (writeResponse_healthy Header_Write status w out Hh Hw)
      as (Hres & Hwire & _).
    assert (read_outcome out = None ∧ delivered out = []) as [Ho Hd].
    { destruct Hout as [->|[rest ->]]; done. }
    rewrite Ho in Hres, Hwire. rewrite Hd in Hwire.
    split; [done|]. rewrite Hwire. unfold response_head, response_tail.
    simpl chunks. by rewrite !app_s_assoc.
Qed.

(** The reads of 10, 0 and 5 bytes on a fresh connection. *)
Lemma C4_witness :
  hijack sample_ResponseWriter = Hijackable
  ∧ healthy (rw sample_ResponseWriter)
  ∧ let r := writeResponse plain_Header_Write 200 sample_ResponseWriter
               [read_ok "0123456789"; read_ok EmptyString; read_ok "abcde"; read_eof] in
    r.2 = None
    ∧ wire (wr (rw r.1))
      = ("HTTP/1.1 200 OK" +:+ CRLF +:+ CRLF
         +:+ "a" +:+ CRLF +:+ "0123456789" +:+ CRLF
         +:+ "5" +:+ CRLF +:+ "abcde" +:+ CRLF
         +:+ "0" +:+ CRLF +:+ CRLF)%string.
Proof.
  assert (healthy (rw sample_ResponseWriter)) as Hw.
  { unfold healthy. simpl. split_and!; [done|done|lia|lia]. }
  split_and!; [done|done|].
  pose proof (C4_empty_read_does_not_end_the_loop plain_Header_Write 200
                sample_ResponseWriter eq_refl Hw) as (_ & _ & _ & H & _).
  destruct (H "0123456789"%string "abcde"%string [] eq_refl eq_refl) as (H1 & H2 & _).
  split; [exact H1|]. etrans; [exact H2|]. reflexivity.
Defined.




(** C3.  For every error value [sanitizedErrStr] returns the error's
    message cut at the first newline or carriage return, so the text that
    the trailer line carries after ["X-Stream-Error: "] contains neither
    a CR nor an LF, whatever the message contains. *)
Theorem C3_sanitizedErrStr_single_line (err : error) :
  sanitizedErrStr err = truncate_at_first_newline_or_cr (Error err)
  ∧ ¬ occurs CR (sanitizedErrStr err)
  ∧ ¬ occurs LF (sanitizedErrStr err)
  ∧ (∃ rest, Error err = sanitizedErrStr err +:+ rest
             ∧ (rest = EmptyString ∨ ∃ c rest', rest = String c rest' ∧ (c = LF ∨ c = CR)))
  ∧ trailer_line err = "X-Stream-Error: " +:+ sanitizedErrStr err +:+ CRLF.
Proof.
  unfold sanitizedErrStr. split_and!.
  - apply Split_twice_truncates.
  - apply index0_Split_no_sep.
  - apply index0_Split_keeps_absent, index0_Split_no_sep.
  - rewrite Split_twice_truncates. generalize (Error err). intros s.
    induction s as [|c s (rest & IH1 & IH2)].
    + exists EmptyString. split; [done|by left].
    + cbn [truncate_at_first_newline_or_cr].
      destruct (decide (c = LF ∨ c = CR)) as [Hc|Hc].
      * exists (String c s). split; [done|]. right. by exists c, s.
      * exists rest. rewrite app_s_cons, <- IH1. done.
  - reflexivity.
Qed.

(** ** sendResponse *)

Lemma writeResponse_frame (Header_Write : Header → string) (status : nat)
    (w : ResponseWriter) (out : Reader) :
  header (writeResponse Header_Write status w out).1 = header w
  ∧ sent_status (writeResponse Header_Write status w out).1 = sent_status w
  ∧ sent_body (writeResponse Header_Write status w out).1 = sent_body w
  ∧ hijack (writeResponse Header_Write status w out).1 = hijack w.
Proof.
  unfold writeResponse. destruct (hijack w) eqn:Hh; simpl; [done|done|].
  by destruct (writeChunks out _).
Qed.

(** Whenever [writeResponse] is called it leaves a trace: the connection
    is hijacked, or a line is logged. *)
Lemma sendResponse_not_HEAD (Header_Write : Header → string) (w : ResponseWriter)
    (r : http_Request) (req : Request) (res : Response) (mime : string) (out : Reader) :
  guessMimeType res = (mime, None) →
  res_Reader res = (out, None) →
  Method r ≠ "HEAD"%string →
  sendResponse Header_Write w r req res
  = (let w1 := with_header w (assemble_headers (header w) mime req res) in
     let '(w2, err) := writeResponse Header_Write (status_of res) w1 out in
     match err with
     | Some e => with_log w2 (LogError ("error while writing stream" +:+ Error e))
     | None => w2
     end)
  ∧ (hijacked (sendResponse Header_Write w r req res) = true
     ∨ log (sendResponse Header_Write w r req res) ≠ log w).
Proof.
  intros Hg Hr Hm. unfold sendResponse. rewrite Hg, Hr. rewrite decide_False by done.
  split; [done|]. cbv zeta. unfold writeResponse.
  assert (∀ (l l' : list LogLine), 0 < List.length l' → l ++ l' ≠ l) as Hneq.
  { intros l l' Hl H. apply (f_equal List.length) in H. rewrite length_app in H. lia. }
  destruct (hijack (with_header w _)) eqn:Hh; simpl.
  - right. rewrite <- app_assoc. apply Hneq. simpl. lia.
  - right. apply Hneq. simpl. lia.
  - destruct (writeChunks out _) as [wl [e|]]; simpl; by left.
Qed.

Lemma assemble_headers_other (h : Header) (mime : string) (req : Request)
    (res : Response) (k : string) :
  k ∉ [contentLengthHeader; streamHeader; channelHeader; contentTypeHeader;
       transferEncodingHeader] →
  assemble_headers h mime req res !! k = h !! k.
Proof.
  rewrite !elem_of_cons, elem_of_nil. intros Hk. unfold assemble_headers, Header_Set.
  destruct (is_Reader (res_Output res)), (is_Chan (res_Output res));
    repeat case_decide;
    repeat (rewrite lookup_insert_ne by (intros <-; apply Hk; auto 10)); done.
Qed.

Lemma assemble_headers_Content_Type (h : Header) (mime : string) (req : Request)
    (res : Response) :
  assemble_headers h mime req res !! contentTypeHeader
  = if decide (final_mime mime req res = EmptyString) then h !! contentTypeHeader
    else Some [final_mime mime req res].
Proof.
  unfold assemble_headers, final_mime, Header_Set.
  destruct (is_Reader (res_Output res)), (is_Chan (res_Output res)),
    ((OptionValue_Bool (Request_Option req "stream-channels")).1.1);
    simpl; repeat case_decide; try done;
    rewrite ?lookup_insert_eq, ?lookup_insert_ne by done;
    rewrite ?lookup_insert_eq, ?lookup_insert_ne by done;
    rewrite ?lookup_insert_eq, ?lookup_insert_ne by done; done.
Qed.

(** [http.Error] answers on the library's path: it leaves the raw
    connection, the log and every header but Content-Type alone. *)
Lemma http_Error_frame (w : ResponseWriter) (msg : string) (code : nat) :
  hijacked (http_Error w msg code) = hijacked w
  ∧ rw (http_Error w msg code) = rw w
  ∧ log (http_Error w msg code) = log w
  ∧ hijack (http_Error w msg code) = hijack w
  ∧ ∀ k, k ≠ contentTypeHeader → header (http_Error w msg code) !! k = header w !! k.
Proof.
  destruct w as [h hj hjd b st bd lg].
  unfold http_Error, ResponseWriter_Write, WriteHeader, with_header, Header_Set.
  destruct st; simpl; split_and!; try done; intros k Hk; by rewrite lookup_insert_ne.
Qed.

(** C6.  [sendResponse] derives the status code from the result: 400 if
    the result carries an error classified as caused by the client, 500
    if it carries an error of any other class, 200 if it carries no
    error; this is the status it passes to [writeResponse], whose status
    line opens the bytes on the connection. *)
Theorem C6_status_derivation
    (Header_Write : Header → string) (w : ResponseWriter) (r : http_Request)
    (req : Request) (res : Response) :
  (∀ e, res_Error res = Some e → Code e = ErrClient → status_of res = 400)
  ∧ (∀ e, res_Error res = Some e → Code e ≠ ErrClient → status_of res = 500)
  ∧ (res_Error res = None → status_of res = 200)
  ∧ (∀ mime out,
       guessMimeType res = (mime, None) →
       res_Reader res = (out, None) →
       Method r ≠ "HEAD"%string →
       sendResponse Header_Write w r req res
       = (let w1 := with_header w (assemble_headers (header w) mime req res) in
          let '(w2, err) := writeResponse Header_Write (status_of res) w1 out in
          match err with
          | Some e => with_log w2 (LogError ("error while writing stream" +:+ Error e))
          | None => w2
          end)
       ∧ (hijack w = Hijackable → healthy (rw w) →
          ∃ rest,
            wire (wr (rw (sendResponse Header_Write w r req res)))
            = pending (rw w)
              +:+ "HTTP/1.1 " +:+ fmt_d (N.of_nat (status_of res)) +:+ " "
              +:+ StatusText (status_of res) +:+ CRLF +:+ rest)).
Proof.
  split_and!.
  - intros e He Hc. unfold status_of. rewrite He. by rewrite decide_True.
  - intros e He Hc. unfold status_of. rewrite He. by rewrite decide_False.
  - intros He. unfold status_of. by rewrite He.
  - intros mime out Hg Hr Hm.
    destruct (sendResponse_not_HEAD Header_Write w r req res mime out Hg Hr Hm)
      as (Heq & _).
    split; [exact Heq|]. intros Hh Hw. rewrite Heq. cbv zeta.
    set (w1 := with_header w (assemble_headers (header w) mime req res)).
    destruct (writeResponse_healthy Header_Write (status_of res) w1 out Hh Hw)
      as (_ & Hwire & _).
    unfold response_head, status_line in Hwire. norm_app in Hwire.
    destruct (writeResponse Header_Write (status_of res) w1 out) as [w2 [e|]];
      simpl in *; rewrite Hwire; eexists; reflexivity.
Qed.

(** A result with an error caused by the client. *)
Lemma C6_witness :
  let res := sample_Response "json" (Some (mkError "no such key" ErrClient))
               [read_ok "{}"; read_eof] in
  res_Error res = Some (mkError "no such key" ErrClient)
  ∧ Code (mkError "no such key" ErrClient) = ErrClient
  ∧ status_of res = 400
  ∧ wire (wr (rw (sendResponse plain_Header_Write sample_ResponseWriter
                    (mkHttpRequest "GET") (sample_Request "json") res)))
    = ("HTTP/1.1 400 Bad Request" +:+ CRLF
       +:+ "Content-Type: application/json" +:+ CRLF
       +:+ "Transfer-Encoding: chunked" +:+ CRLF
       +:+ CRLF
       +:+ "2" +:+ CRLF +:+ "{}" +:+ CRLF
       +:+ "0" +:+ CRLF +:+ CRLF)%string.
Proof.
  cbv zeta.
  pose proof (C6_status_derivation plain_Header_Write sample_ResponseWriter
                (mkHttpRequest "GET") (sample_Request "json")
                (sample_Response "json" (Some (mkError "no such key" ErrClient))
                   [read_ok "{}"; read_eof])) as (H & _).
  split_and!; [reflexivity|reflexivity| |vm_compute; reflexivity].
  exact (H _ eq_refl eq_refl).
Defined.

(** C7.  For every request whose method is HEAD, [sendResponse] returns
    right after assembling the headers: [writeResponse] is not invoked
    (the connection is not hijacked and nothing is logged) and no byte,
    neither a chunk record nor the terminal chunk nor a trailer, is
    given to the connection or to its writer; the response writer is
    left as it was but for the assembled headers. *)
Theorem C7_HEAD_has_no_body
    (Header_Write : Header → string) (w : ResponseWriter) (r : http_Request)
    (req : Request) (res : Response) :
  Method r = "HEAD"%string →
  let w' := sendResponse Header_Write w r req res in
  hijacked w' = hijacked w
  ∧ rw w' = rw w
  ∧ log w' = log w
  ∧ (∀ mime out,
       guessMimeType res = (mime, None) →
       res_Reader res = (out, None) →
       w' = with_header w (assemble_headers (header w) mime req res)
       ∧ sent_status w' = sent_status w
       ∧ sent_body w' = sent_body w
       ∧ header w' !! transferEncodingHeader = Some ["chunked"%string]).
Proof.
  intros Hm w'. subst w'. unfold sendResponse.
  destruct (guessMimeType res) as [mime [e|]].
  { destruct (http_Error_frame w (Error e) StatusInternalServerError)
      as (? & ? & ? & _). by split_and!. }
  destruct (res_Reader res) as [out [e|]].
  { destruct (http_Error_frame w (Error e) StatusInternalServerError)
      as (? & ? & ? & _). by split_and!. }
  rewrite decide_True by done.
  split_and!; try done.
  intros mime' out' [= <-] [= <-]. split_and!; try done.
  unfold assemble_headers, Header_Set. simpl.
  destruct (is_Reader _), (is_Chan _); repeat case_decide; apply lookup_insert_eq.
Qed.

(** A HEAD request for a JSON result. *)
Lemma C7_witness :
  Method (mkHttpRequest "HEAD") = "HEAD"%string
  ∧ let w' := sendResponse plain_Header_Write sample_ResponseWriter
                (mkHttpRequest "HEAD") (sample_Request "json")
                (sample_Response "json" None [read_ok "{}"; read_eof]) in
    hijacked w' = false
    ∧ wire (wr (rw w')) = EmptyString
    ∧ buf (rw w') = EmptyString
    ∧ sent_body w' = EmptyString.
Proof.
  split; [reflexivity|]. cbv zeta.
  pose proof (C7_HEAD_has_no_body plain_Header_Write sample_ResponseWriter
                (mkHttpRequest "HEAD") (sample_Request "json")
                (sample_Response "json" None [read_ok "{}"; read_eof]) eq_refl)
    as (H1 & H2 & _ & H4).
  destruct (H4 _ _ eq_refl eq_refl) as (_ & _ & H5 & _).
  cbv zeta in H1, H2, H5. rewrite H1, H2, H5. by split_and!.
Defined.

Lemma mimeTypes_lookup (enc : string) :
  default EmptyString (mimeTypes !! enc)
  = if decide (enc = JSON) then "application/json"%string
    else if decide (enc = XML) then "application/xml"%string
    else if decide (enc = Text) then "text/plain"%string
    else EmptyString.
Proof.
  unfold mimeTypes. repeat case_decide; subst; simplify_map_eq; done.
Qed.

Lemma sendResponse_header (Header_Write : Header → string) (w : ResponseWriter)
    (r : http_Request) (req : Request) (res : Response) (mime : string) (out : Reader) :
  guessMimeType res = (mime, None) →
  res_Reader res = (out, None) →
  header (sendResponse Header_Write w r req res)
  = assemble_headers (header w) mime req res.
Proof.
  intros Hg Hr. unfold sendResponse. rewrite Hg, Hr.
  destruct (decide (Method r = "HEAD"%string)); [done|].
  pose proof (writeResponse_frame Header_Write (status_of res)
                (with_header w (assemble_headers (header w) mime req res)) out)
    as (Hh & _).
  destruct (writeResponse _ _ _ out) as [w2 [e|]]; exact Hh.
Qed.

(** [sendResponse] sets five headers of its own and, when it answers
    with [http.Error], Content-Type; every other header it leaves as it
    found it. *)
Lemma sendResponse_header_other (Header_Write : Header → string) (w : ResponseWriter)
    (r : http_Request) (req : Request) (res : Response) (k : string) :
  k ∉ [contentLengthHeader; streamHeader; channelHeader; contentTypeHeader;
       transferEncodingHeader] →
  header (sendResponse Header_Write w r req res) !! k = header w !! k.
Proof.
  intros Hk.
  assert (k ≠ contentTypeHeader) as Hct.
  { intros ->. apply Hk. rewrite !elem_of_cons. auto 10. }
  destruct (guessMimeType res) as [mime [e|]] eqn:Hg.
  { unfold sendResponse. rewrite Hg. by apply http_Error_frame. }
  destruct (res_Reader res) as [out [e|]] eqn:Hr.
  { unfold sendResponse. rewrite Hg, Hr. by apply http_Error_frame. }
  rewrite (sendResponse_header _ _ _ _ _ mime out Hg Hr).
  by apply assemble_headers_other.
Qed.

(** C8.  [guessMimeType] fails with the message "no encoding option set"
    when the encoding option is absent from the options of the request;
    when it is present (a string) the result is "application/json" for
    "json", "application/xml" for "xml", "text/plain" for "text" and the
    empty string for every other encoding; and when the mime type in
    force at the test [mime != ""] is empty, [sendResponse] sets no
    Content-Type.  That mime type is the guess itself for a materialized
    value, and an empty guess stays empty unless the output is a channel
    that is streamed. *)
Theorem C8_guessMimeType
    (Header_Write : Header → string) (w : ResponseWriter) (r : http_Request)
    (req : Request) (res : Response) :
  (Request_Option (res_Request res) EncShort = None →
     guessMimeType res = (EmptyString, Some (errors_New "no encoding option set"))
     ∧ Error (errors_New "no encoding option set") = "no encoding option set"%string)
  ∧ (∀ enc, Request_Option (res_Request res) EncShort = Some (OptString enc) →
       (guessMimeType res).2 = None
       ∧ (enc = "json"%string → (guessMimeType res).1 = "application/json"%string)
       ∧ (enc = "xml"%string → (guessMimeType res).1 = "application/xml"%string)
       ∧ (enc = "text"%string → (guessMimeType res).1 = "text/plain"%string)
       ∧ (enc ∉ ["json"; "xml"; "text"]%string → (guessMimeType res).1 = EmptyString))
  ∧ (∀ mime out,
       guessMimeType res = (mime, None) →
       res_Reader res = (out, None) →
       final_mime mime req res = EmptyString →
       header (sendResponse Header_Write w r req res) !! contentTypeHeader
       = header w !! contentTypeHeader)
  ∧ (∀ mime, res_Output res = OutValue → final_mime mime req res = mime)
  ∧ (is_Chan (res_Output res)
     && (OptionValue_Bool (Request_Option req "stream-channels")).1.1 = false →
     final_mime EmptyString req res = EmptyString).
Proof.
  split_and!.
  - intros Hopt. unfold guessMimeType. rewrite Hopt. done.
  - intros enc Hopt. unfold guessMimeType. rewrite Hopt. simpl.
    rewrite mimeTypes_lookup. unfold JSON, XML, Text. split_and!.
    + done.
    + intros ->. done.
    + intros ->. done.
    + intros ->. done.
    + rewrite !elem_of_cons, elem_of_nil. intros Hne.
      repeat case_decide; try done; exfalso; apply Hne; auto.
  - intros mime out Hg Hr Hm.
    rewrite (sendResponse_header _ _ _ _ _ mime out Hg Hr).
    rewrite assemble_headers_Content_Type. by rewrite decide_True.
  - intros mime Ho. unfold final_mime. by rewrite Ho.
  - intros Hc. unfold final_mime. rewrite Hc. by destruct (is_Reader _).
Qed.

(** An unknown encoding, and a request without the encoding option. *)
Lemma C8_witness :
  Request_Option (res_Request (sample_Response "yaml" None [])) EncShort
    = Some (OptString "yaml")
  ∧ Request_Option (mkRequest ∅) EncShort = None
  ∧ guessMimeType (sample_Response "yaml" None []) = (EmptyString, None)
  ∧ guessMimeType (mkResponse (mkRequest ∅) None OutValue 0 ([], None))
    = (EmptyString, Some (errors_New "no encoding option set"))
  ∧ header (sendResponse plain_Header_Write sample_ResponseWriter
              (mkHttpRequest "GET") (sample_Request "yaml")
              (sample_Response "yaml" None [])) !! contentTypeHeader = None.
Proof.
  pose proof (C8_guessMimeType plain_Header_Write sample_ResponseWriter
                (mkHttpRequest "GET") (sample_Request "yaml")
                (sample_Response "yaml" None [])) as (_ & H2 & H3 & _ & _).
  pose proof (C8_guessMimeType plain_Header_Write sample_ResponseWriter
                (mkHttpRequest "GET") (sample_Request "yaml")
                (mkResponse (mkRequest ∅) None OutValue 0 ([], None))) as (H1 & _).
  split_and!.
  - reflexivity.
  - reflexivity.
  - reflexivity.
  - exact (proj1 (H1 eq_refl)).
  - exact (H3 EmptyString [] eq_refl eq_refl eq_refl).
Defined.

(** ** The operator's headers *)

Lemma http_Error_header (w : ResponseWriter) (msg : string) (code : nat) (k : string) :
  k ≠ contentTypeHeader → header (http_Error w msg code) !! k = header w !! k.
Proof. intros Hk. by apply http_Error_frame. Qed.

Lemma WriteHeader_header (w : ResponseWriter) (code : nat) :
  header (WriteHeader w code) = header w.
Proof. unfold WriteHeader. by destruct (sent_status w). Qed.

Lemma ResponseWriter_Write_header (w : ResponseWriter) (p : string) :
  header (ResponseWriter_Write w p) = header w.
Proof. unfold ResponseWriter_Write. simpl. apply WriteHeader_header. Qed.

Lemma reserved_not_set_by_sendResponse (k : string) :
  k ∈ reserved_cors_headers →
  k ∉ [contentLengthHeader; streamHeader; channelHeader; contentTypeHeader;
       transferEncodingHeader].
Proof.
  unfold reserved_cors_headers. rewrite !elem_of_cons, !elem_of_nil.
  intros [->|[->|[->|[]]]]; intros H; repeat destruct H as [H|H]; done.
Qed.

(** C5.  When the handler applies the operator's extra headers, no entry
    whose name is exactly Access-Control-Allow-Origin,
    Access-Control-Allow-Methods or Access-Control-Allow-Credentials is
    copied into the response headers (what the CORS layer put there
    stays, on every request and on every path of the handler), and every
    other entry is copied; the headers are applied after the command was
    called, whatever its result. *)
Theorem C5_reserved_cors_headers_are_not_copied
    (Header_Write : Header → string)
    (Parse : http_Request → Command → Request * option error)
    (SetRootContext : Request → option error)
    (i : internalHandler) (w : ResponseWriter) (r : http_Request) :
  (∀ k extra h, k ∈ reserved_cors_headers → apply_headers extra h !! k = h !! k)
  ∧ (∀ k v extra h, k ∉ reserved_cors_headers → extra !! k = Some v →
       apply_headers extra h !! k = Some v)
  ∧ (∀ k, k ∈ reserved_cors_headers →
       header (ServeHTTP Header_Write Parse SetRootContext i w r) !! k = header w !! k)
  ∧ (∀ req, Parse r (root i) = (req, None) → GetNode (ctx i) = None →
       SetRootContext req = None →
       ServeHTTP Header_Write Parse SetRootContext i w r
       = sendResponse Header_Write
           (with_header (with_log w (LogDebug "Incoming API request: "))
              (apply_headers (Headers (cfg i)) (header w)))
           r req (Call (root i) req)).
Proof.
  split_and!.
  - intros k extra h Hk. rewrite apply_headers_lookup.
    apply skipAPIHeader_true in Hk. by rewrite Hk.
  - intros k v extra h Hk Hv. rewrite apply_headers_lookup.
    apply skipAPIHeader_false in Hk. by rewrite Hk, Hv.
  - intros k Hk. unfold ServeHTTP.
    destruct (Parse r (root i)) as [req [e|]].
    { rewrite ResponseWriter_Write_header.
      by destruct (decide (e = ErrNotFound)); rewrite WriteHeader_header. }
    assert (k ≠ contentTypeHeader) as Hct.
    { intros ->. apply reserved_not_set_by_sendResponse in Hk.
      apply Hk. rewrite !elem_of_cons. auto 10. }
    destruct (GetNode (ctx i)) as [e|].
    { by rewrite http_Error_header. }
    destruct (SetRootContext req) as [e|].
    { by rewrite http_Error_header. }
    rewrite sendResponse_header_other by by apply reserved_not_set_by_sendResponse.
    simpl. rewrite apply_headers_lookup.
    apply skipAPIHeader_true in Hk. by rewrite Hk.
  - intros req Hp Hn Hs. unfold ServeHTTP. by rewrite Hp, Hn, Hs.
Qed.

(** An operator's map with a reserved and an unreserved name. *)
Lemma C5_witness :
  "Access-Control-Allow-Origin"%string ∈ reserved_cors_headers
  ∧ ("X-Served-By"%string ∉ reserved_cors_headers)
  ∧ sample_extra_headers !! "X-Served-By"%string = Some ["gateway"%string]
  ∧ (apply_headers sample_extra_headers sample_cors_headers
      !! "Access-Control-Allow-Origin"%string)
    = Some ["http://localhost"%string]
  ∧ apply_headers sample_extra_headers sample_cors_headers !! "X-Served-By"%string
    = Some ["gateway"%string].
Proof.
  assert ("Access-Control-Allow-Origin"%string ∈ reserved_cors_headers) as Hin.
  { apply skipAPIHeader_true. reflexivity. }
  assert ("X-Served-By"%string ∉ reserved_cors_headers) as Hout.
  { apply skipAPIHeader_false. reflexivity. }
  pose proof (C5_reserved_cors_headers_are_not_copied plain_Header_Write
                (λ _ _, (mkRequest ∅, None)) (λ _, None)
                (mkInternal (mkContext None)
                   (mkCommand (λ req, sample_Response "json" None []))
                   (mkServerConfig ∅ None))
                sample_ResponseWriter (mkHttpRequest "GET")) as (H1 & H2 & _).
  split_and!; [exact Hin|exact Hout|reflexivity| |].
  - etrans; [exact (H1 _ sample_extra_headers sample_cors_headers Hin)|]. reflexivity.
  - exact (H2 _ ["gateway"%string] sample_extra_headers sample_cors_headers Hout eq_refl).
Defined.

(** C9.  The filter of the reserved CORS headers compares names byte for
    byte: for every extra header whose name differs from one of the
    three reserved names only in letter case, [skipAPIHeader] returns
    false and the header is written into the response header map under
    that very key. *)
Theorem C9_filter_is_case_sensitive (k name : string) :
  name ∈ reserved_cors_headers →
  lower k = lower name →
  k ≠ name →
  skipAPIHeader k = false
  ∧ ∀ (extra h : Header) (v : list string),
      extra !! k = Some v → apply_headers extra h !! k = Some v.
Proof.
  intros Hname Hlow Hne.
  assert (skipAPIHeader k = false) as Hskip.
  { apply skipAPIHeader_false. intros Hk.
    unfold reserved_cors_headers in Hname, Hk.
    rewrite !elem_of_cons, !elem_of_nil in Hname, Hk.
    destruct Hk as [->|[->|[->|[]]]]; destruct Hname as [->|[->|[->|[]]]];
      first [done | discriminate Hlow]. }
  split; [exact Hskip|]. intros extra h v Hv.
  by rewrite apply_headers_lookup, Hskip, Hv.
Qed.

(** The lowercase spelling of a reserved name. *)
Lemma C9_witness :
  "Access-Control-Allow-Origin"%string ∈ reserved_cors_headers
  ∧ lower "access-control-allow-origin" = lower "Access-Control-Allow-Origin"
  ∧ "access-control-allow-origin"%string ≠ "Access-Control-Allow-Origin"%string
  ∧ skipAPIHeader "access-control-allow-origin" = false
  ∧ (apply_headers {[ "access-control-allow-origin"%string := ["*"%string] ]} ∅
      !! "access-control-allow-origin"%string) = Some ["*"%string].
Proof.
  assert ("Access-Control-Allow-Origin"%string ∈ reserved_cors_headers) as Hin.
  { apply skipAPIHeader_true. reflexivity. }
  assert ("access-control-allow-origin"%string ≠ "Access-Control-Allow-Origin"%string)
    as Hne by discriminate.
  pose proof (C9_filter_is_case_sensitive "access-control-allow-origin"
                "Access-Control-Allow-Origin" Hin eq_refl Hne) as (H1 & H2).
  split_and!; [exact Hin|reflexivity|exact Hne|exact H1|].
  exact (H2 {[ "access-control-allow-origin"%string := ["*"%string] ]} ∅
            ["*"%string] eq_refl).
Defined.

(** C10.  [NewHandler] never follows a nil pointer: for every context and
    root command, and for every configuration, a nil one and one with a
    nil CORSOpts, nil AllowedMethods or nil AllowedOrigins included, it
    returns a handler; the CORS options of that handler have
    AllowedMethods GET, POST, PUT and AllowedOrigins the four localhost
    origins wherever the field was nil, and the configured value
    otherwise. *)
Theorem C10_NewHandler_defaults (c : Context) (rt : Command)
    (config : option ServerConfig) :
  ∃ h, NewHandler c rt config = Ok h
       ∧ AllowedMethods (corsHandler h)
         = Some (default ["GET"; "POST"; "PUT"]%string
                   ((config ≫= CORSOpts) ≫= AllowedMethods))
       ∧ AllowedOrigins (corsHandler h)
         = Some (default ["http://127.0.0.1"; "https://127.0.0.1";
                          "http://localhost"; "https://localhost"]%string
                   ((config ≫= CORSOpts) ≫= AllowedOrigins))
       ∧ CORSOpts (cfg (internal h)) = Some (corsHandler h)
       ∧ Headers (cfg (internal h)) = default ∅ (Headers <$> config)
       ∧ ctx (internal h) = c ∧ root (internal h) = rt.
Proof.
  unfold NewHandler.
  destruct config as [[hs [[[origins|] [methods|]]|]]|]; simpl; eexists; split_and!; done.
Qed.

(** * Further properties of the handler *)

(** ** Initial parts of strings *)

Lemma prefix_s_refl (s : string) : prefix_s s s.
Proof. exists EmptyString. by rewrite app_s_nil_r. Qed.

Lemma prefix_s_trans (s t u : string) : prefix_s s t → prefix_s t u → prefix_s s u.
Proof. intros [a ->] [b ->]. exists (a +:+ b). by rewrite app_s_assoc. Qed.

Lemma prefix_s_app (s t : string) : prefix_s s (s +:+ t).
Proof. by exists t. Qed.

Lemma prefix_s_app_r (s t u : string) : prefix_s s t → prefix_s s (t +:+ u).
Proof. intros [a ->]. exists (a +:+ u). by rewrite app_s_assoc. Qed.

Lemma prefix_s_take (n : nat) (s : string) : prefix_s (take_s n s) s.
Proof. exists (drop_s n s). by rewrite take_drop_s. Qed.

(** ** The buffered writer on any connection *)

Lemma conn_Write_spec (c : Conn) (p : string) :
  wire (conn_Write c p).1.1 = wire c +:+ take_s (conn_Write c p).1.2 p
  ∧ (conn_Write c p).1.2 ≤ String.length p
  ∧ closed (conn_Write c p).1.1 = closed c
  ∧ ((conn_Write c p).2 = None → (conn_Write c p).1.2 = String.length p)
  ∧ ((conn_Write c p).2 ≠ None → (conn_Write c p).1.2 < String.length p).
Proof.
  unfold conn_Write. destruct (breaks c) as [[k e]|]; simpl.
  - destruct (decide (String.length p ≤ k)); simpl.
    + rewrite take_s_all by lia. by split_and!.
    + split_and!; try done; lia.
  - rewrite take_s_all by lia. by split_and!.
Qed.

Lemma offered_failed (b : Writer) (s : string) (e : error) :
  well_formed b → werr b = Some e → offered b s b.
Proof.
  intros Hwf He. unfold offered. rewrite He.
  split_and!; try done; [apply prefix_s_refl|apply prefix_s_app].
Qed.

Lemma offered_refl (b : Writer) : well_formed b → offered b EmptyString b.
Proof.
  intros Hwf. unfold offered. split_and!; try done; [apply prefix_s_refl|].
  rewrite app_s_nil_r. destruct (werr b); [apply prefix_s_refl|done].
Qed.

Lemma offered_trans (b1 b2 b3 : Writer) (s t : string) :
  offered b1 s b2 → offered b2 t b3 → offered b1 (s +:+ t) b3.
Proof.
  intros (Hwf2 & Hs2 & Hc2 & Hw2 & Hf2 & Hp2) (Hwf3 & Hs3 & Hc3 & Hw3 & Hf3 & Hp3).
  unfold offered. split_and!; [done|congruence|congruence| | |].
  - by eapply prefix_s_trans.
  - intros e He. specialize (Hf2 e He). subst b2. by apply (Hf3 e).
  - destruct (werr b2) as [e2|] eqn:He2.
    + rewrite (Hf3 e2 eq_refl), He2. rewrite <- app_s_assoc. by apply prefix_s_app_r.
    + rewrite <- app_s_assoc, <- Hp2. destruct (werr b3); [|done]. done.
Qed.

(** An offer that ended in an error may be seen as the offer of more. *)
Lemma offered_more (b b' : Writer) (s t : string) :
  offered b s b' → werr b' ≠ None → offered b (s +:+ t) b'.
Proof.
  intros (Hwf & Hs & Hc & Hw & Hf & Hp) He. unfold offered.
  split_and!; try done. destruct (werr b'); [|done].
  rewrite <- app_s_assoc. by apply prefix_s_app_r.
Qed.

Lemma Flush_offered (b : Writer) :
  well_formed b →
  offered b EmptyString (Flush b).1
  ∧ pending (Flush b).1 = pending b
  ∧ (werr (Flush b).1 = None → buf (Flush b).1 = EmptyString).
Proof.
  intros Hwf. destruct (werr b) as [e|] eqn:He.
  { rewrite (Flush_failed b e He). simpl. split_and!; [|done|congruence].
    by apply (offered_failed b _ e). }
  unfold Flush. rewrite He. destruct (decide (Buffered b = 0)) as [Hz|Hnz]; simpl.
  { split_and!; [by apply offered_refl|done|]. intros _. by apply length_zero_s. }
  pose proof (conn_Write_spec (wr b) (buf b)) as (Hw & Hn & Hc & Hok & Hbad).
  destruct (conn_Write (wr b) (buf b)) as [[c n] e]. simpl in *.
  destruct Hwf as [Hpos Hlen].
  assert (wire c +:+ drop_s n (buf b) = pending b) as Hpend.
  { unfold pending. by rewrite Hw, app_s_assoc, take_drop_s. }
  destruct e as [e|].
  - simpl. unfold offered, well_formed, pending. simpl. rewrite Hpend, He, app_s_nil_r.
    split_and!; try done.
    + rewrite length_drop_s. lia.
    + rewrite Hw. apply prefix_s_app.
    + apply prefix_s_refl.
  - specialize (Hok eq_refl). subst n.
    destruct (decide (String.length (buf b) < Buffered b)) as [Hlt|_].
    { unfold Buffered in Hlt. lia. }
    simpl. rewrite take_s_all in Hw by lia.
    unfold offered, well_formed, pending. simpl. rewrite He, !app_s_nil_r, Hw.
    split_and!; try done; [lia|apply prefix_s_app].
Qed.

Lemma copy_in_spec (b : Writer) (s : string) :
  well_formed b →
  well_formed (copy_in b s).1
  ∧ (copy_in b s).2 = Available b `min` String.length s
  ∧ pending (copy_in b s).1 = pending b +:+ take_s (copy_in b s).2 s
  ∧ wr (copy_in b s).1 = wr b
  ∧ bufsize (copy_in b s).1 = bufsize b
  ∧ werr (copy_in b s).1 = werr b.
Proof.
  intros [Hpos Hlen]. unfold copy_in, well_formed, pending, Available. simpl.
  rewrite length_app_s, length_take_s, app_s_assoc. split_and!; try done; lia.
Qed.

(** Filling the buffer to the brim and flushing it, on any connection. *)
Lemma copy_in_Flush_offered (b : Writer) (s : string) :
  well_formed b → werr b = None → Available b < String.length s →
  let b' := (Flush (copy_in b s).1).1 in
  offered b (take_s (Available b) s) b'
  ∧ pending b' = pending b +:+ take_s (Available b) s
  ∧ (copy_in b s).2 = Available b
  ∧ (werr b' = None → buf b' = EmptyString).
Proof.
  intros Hwf He Hlt.
  destruct (copy_in_spec b s Hwf) as (Hwf1 & Hn & Hp1 & Hwr1 & Hs1 & He1).
  rewrite Nat.min_l in Hn by lia. rewrite Hn in Hp1.
  destruct (Flush_offered _ Hwf1) as ((Hwf2 & Hs2 & Hc2 & Hw2 & Hf2 & Hp2) & Hpend & Hbuf).
  cbv zeta. split_and!; [|congruence|done|done].
  unfold offered. rewrite Hwr1 in *. split_and!; [done|congruence|done|done| |].
  - intros e He'. congruence.
  - rewrite Hpend, Hp1.
    destruct (werr (Flush (copy_in b s).1).1); [apply prefix_s_refl|done].
Qed.

Lemma WriteString_loop_offered (fuel : nat) (b : Writer) (s : string) (nn : nat) :
  well_formed b → werr b = None →
  2 * String.length s + (if decide (Available b = 0) then 1 else 0) ≤ fuel →
  ∃ b1 s1 nn1, WriteString_loop fuel b s nn = (b1, s1, nn1)
    ∧ well_formed b1 ∧ bufsize b1 = bufsize b ∧ closed (wr b1) = closed (wr b)
    ∧ prefix_s (wire (wr b)) (wire (wr b1))
    ∧ pending b1 +:+ s1 = pending b +:+ s
    ∧ (werr b1 = None → String.length s1 ≤ Available b1).
Proof.
  revert b s nn. induction fuel as [|fuel IH]; intros b s nn Hwf He Hfuel.
  - exists b, s, nn. simpl. split_and!; try done; [apply prefix_s_refl|].
    intros _. destruct (decide (Available b = 0)); lia.
  - cbn [WriteString_loop].
    destruct (decide (Available b < String.length s ∧ werr b = None)) as [[Hlt _]|Hno].
    + destruct (copy_in_Flush_offered b s Hwf He Hlt)
        as ((Hwf2 & Hs2 & Hc2 & Hw2 & _ & _) & Hp2 & Hn & Hbuf).
      destruct (copy_in b s) as [b1 n] eqn:Hcopy. simpl in Hwf2, Hs2, Hc2, Hw2, Hp2, Hn, Hbuf.
      subst n. set (b2 := (Flush b1).1) in *.
      destruct (werr b2) as [e2|] eqn:He2.
      * (* the flush failed: the loop ends at its next test *)
        exists b2, (drop_s (Available b) s), (nn + Available b).
        split_and!; try done; try congruence.
        -- destruct fuel as [|fuel']; [done|]. cbn [WriteString_loop].
           rewrite decide_False; [done|]. rewrite He2. by intros [_ ?].
        -- by rewrite Hp2, app_s_assoc, take_drop_s.
      * destruct (IH b2 (drop_s (Available b) s) (nn + Available b) Hwf2 He2)
          as (b3 & s3 & nn3 & Hloop & Hwf3 & Hs3 & Hc3 & Hw3 & Hp3 & Hfit).
        { rewrite length_drop_s.
          assert (Available b2 = bufsize b) as ->
            by (unfold Available; rewrite (Hbuf eq_refl), Hs2; simpl; lia).
          destruct Hwf as [Hpos _].
          destruct (decide (bufsize b = 0)); [lia|].
          destruct (decide (Available b = 0)); lia. }
        exists b3, s3, nn3. rewrite Hloop, Hp3, Hp2, app_s_assoc, take_drop_s.
        split_and!; [done|done|congruence|congruence| |done|done].
        by eapply prefix_s_trans.
    + exists b, s, nn. split_and!; try done; [apply prefix_s_refl|].
      intros _. apply not_and_l in Hno as [Hno|Hno]; [lia|done].
Qed.

(** [WriteString] on any connection. *)
Lemma WriteString_offered (b : Writer) (s : string) :
  well_formed b → offered b s (discard (WriteString b s)).
Proof.
  intros Hwf. destruct (werr b) as [e|] eqn:He.
  { rewrite (WriteString_failed b s e He). by apply (offered_failed b s e). }
  unfold WriteString, discard.
  destruct (WriteString_loop_offered (2 * String.length s + 2) b s 0 Hwf He)
    as (b1 & s1 & nn1 & -> & Hwf1 & Hs1 & Hc1 & Hw1 & Hp1 & Hfit).
  { case_decide; lia. }
  destruct (werr b1) as [e1|] eqn:He1.
  - simpl. unfold offered. rewrite He1. split_and!; try done; [congruence|].
    rewrite <- Hp1. apply prefix_s_app.
  - destruct (copy_in_spec b1 s1 Hwf1) as (Hwf2 & Hn & Hp2 & Hwr2 & Hs2 & He2).
    destruct (copy_in b1 s1) as [b2 n]. simpl in *.
    rewrite Nat.min_r in Hn by (specialize (Hfit eq_refl); lia). subst n.
    rewrite take_s_all in Hp2 by lia.
    unfold offered. rewrite He2, He1, Hwr2, Hp2, Hp1.
    split_and!; try done; congruence.
Qed.

Lemma Write_loop_offered (fuel : nat) (b : Writer) (p : string) (nn : nat) :
  well_formed b → werr b = None →
  (if decide (String.length p ≤ Available b) then 0
   else if decide (Buffered b = 0) then 1 else 2) ≤ fuel →
  ∃ b1 p1 nn1, Write_loop fuel b p nn = (b1, p1, nn1)
    ∧ well_formed b1 ∧ bufsize b1 = bufsize b ∧ closed (wr b1) = closed (wr b)
    ∧ prefix_s (wire (wr b)) (wire (wr b1))
    ∧ pending b1 +:+ p1 = pending b +:+ p
    ∧ (werr b1 = None → String.length p1 ≤ Available b1).
Proof.
  revert b p nn. induction fuel as [|fuel IH]; intros b p nn Hwf He Hfuel.
  - exists b, p, nn. simpl. split_and!; try done; [apply prefix_s_refl|].
    intros _. repeat case_decide; lia.
  - cbn [Write_loop].
    destruct (decide (Available b < String.length p ∧ werr b = None)) as [[Hlt _]|Hno].
    + rewrite decide_False in Hfuel by lia.
      destruct (decide (Buffered b = 0)) as [Hz|Hnz].
      * (* the buffer is empty: [p] goes to the connection *)
        pose proof (conn_Write_spec (wr b) p) as (Hw & Hn & Hc & Hok & Hbad).
        destruct (conn_Write (wr b) p) as [[c n] e]. simpl in Hw, Hn, Hc, Hok, Hbad.
        unfold Buffered in Hz. apply length_zero_s in Hz.
        set (b2 := mkWriter c (bufsize b) (buf b) e).
        assert (well_formed b2) as Hwf2 by done.
        assert (pending b2 +:+ drop_s n p = pending b +:+ p) as Hp2.
        { unfold pending. simpl. rewrite Hz, Hw, !app_s_nil_r.
          by rewrite app_s_assoc, take_drop_s. }
        assert (prefix_s (wire (wr b)) (wire (wr b2))) as Hw2.
        { simpl. rewrite Hw. apply prefix_s_app. }
        destruct e as [e|].
        -- exists b2, (drop_s n p), (nn + n). split_and!; try done.
           destruct fuel as [|fuel']; [done|]. cbn [Write_loop].
           rewrite decide_False; [done|]. simpl. by intros [_ ?].
        -- destruct (IH b2 (drop_s n p) (nn + n) Hwf2 eq_refl)
             as (b3 & p3 & nn3 & Hloop & Hwf3 & Hs3 & Hc3 & Hw3 & Hp3 & Hfit).
           { rewrite length_drop_s, (Hok eq_refl), Nat.sub_diag.
             destruct (decide (0 ≤ Available b2)); lia. }
           exists b3, p3, nn3. rewrite Hloop, Hp3, Hp2.
           split_and!; [done|done|done|by rewrite Hc3| |done|done].
           by eapply prefix_s_trans.
      * destruct (copy_in_Flush_offered b p Hwf He Hlt)
          as ((Hwf2 & Hs2 & Hc2 & Hw2 & _ & _) & Hp2 & Hn & Hbuf).
        destruct (copy_in b p) as [b1 n] eqn:Hcopy.
        simpl in Hwf2, Hs2, Hc2, Hw2, Hp2, Hn, Hbuf.
        subst n. set (b2 := (Flush b1).1) in *.
        destruct (werr b2) as [e2|] eqn:He2.
        -- exists b2, (drop_s (Available b) p), (nn + Available b).
           split_and!; try done; try congruence.
           ++ destruct fuel as [|fuel']; [done|]. cbn [Write_loop].
              rewrite decide_False; [done|]. rewrite He2. by intros [_ ?].
           ++ by rewrite Hp2, app_s_assoc, take_drop_s.
        -- destruct (IH b2 (drop_s (Available b) p) (nn + Available b) Hwf2 He2)
             as (b3 & p3 & nn3 & Hloop & Hwf3 & Hs3 & Hc3 & Hw3 & Hp3 & Hfit).
           { unfold Buffered. rewrite (Hbuf eq_refl). simpl.
             destruct (decide (String.length (drop_s (Available b) p)
                               ≤ Available b2)); lia. }
           exists b3, p3, nn3. rewrite Hloop, Hp3, Hp2, app_s_assoc, take_drop_s.
           split_and!; [done|done|congruence|congruence| |done|done].
           by eapply prefix_s_trans.
    + exists b, p, nn. split_and!; try done; [apply prefix_s_refl|].
      intros _. apply not_and_l in Hno as [Hno|Hno]; [lia|done].
Qed.

(** [Write] on any connection. *)
Lemma Write_offered (b : Writer) (p : string) :
  well_formed b → offered b p (discard (Write b p)).
Proof.
  intros Hwf. destruct (werr b) as [e|] eqn:He.
  { rewrite (Write_failed b p e He). by apply (offered_failed b p e). }
  unfold Write, discard.
  destruct (Write_loop_offered (2 * String.length p + 2) b p 0 Hwf He)
    as (b1 & p1 & nn1 & -> & Hwf1 & Hs1 & Hc1 & Hw1 & Hp1 & Hfit).
  { repeat case_decide; lia. }
  destruct (werr b1) as [e1|] eqn:He1.
  - simpl. unfold offered. rewrite He1. split_and!; try done; [congruence|].
    rewrite <- Hp1. apply prefix_s_app.
  - destruct (copy_in_spec b1 p1 Hwf1) as (Hwf2 & Hn & Hp2 & Hwr2 & Hs2 & He2).
    destruct (copy_in b1 p1) as [b2 n]. simpl in *.
    rewrite Nat.min_r in Hn by (specialize (Hfit eq_refl); lia). subst n.
    rewrite take_s_all in Hp2 by lia.
    unfold offered. rewrite He2, He1, Hwr2, Hp2, Hp1.
    split_and!; try done; congruence.
Qed.

(** ** The loop and the response on any connection *)

Lemma writeChunks_step_offered (x : ReadResult) (w : Writer) :
  well_formed w →
  offered w (chunks (if decide (0 < String.length (rdata x)) then [rdata x] else []))
          (writeChunks_step x w).1.
Proof.
  intros Hwf. unfold writeChunks_step.
  destruct (decide (0 < String.length (rdata x))) as [Hn|Hn].
  - pose proof (WriteString_offered w (fmt_x (String.length (rdata x)) +:+ CRLF) Hwf) as H1.
    set (w1 := discard (WriteString w _)) in *.
    pose proof (Write_offered w1 (rdata x) (proj1 H1)) as H2.
    pose proof (Write_err w1 (rdata x)) as He2.
    unfold discard in H2, He2. destruct (Write w1 (rdata x)) as [[w2 k] e2].
    simpl in H2, He2. subst e2.
    pose proof (offered_trans _ _ _ _ _ H1 H2) as H12.
    assert (chunks [rdata x]
            = (fmt_x (String.length (rdata x)) +:+ CRLF) +:+ rdata x +:+ CRLF) as ->.
    { simpl. unfold chunk_record. by norm_app. }
    destruct (werr w2) as [e|] eqn:He.
    + simpl. rewrite <- app_s_assoc. apply offered_more; [done|]. by rewrite He.
    + pose proof (WriteString_offered w2 CRLF (proj1 H2)) as H3.
      set (w3 := discard (WriteString w2 CRLF)) in *.
      destruct (Flush_offered w3 (proj1 H3)) as (H4 & _).
      pose proof (offered_trans _ _ _ _ _ (offered_trans _ _ _ _ _ H12 H3) H4) as H.
      rewrite !app_s_assoc, app_s_nil_r in H.
      destruct (rerr x) as [e|]; [destruct (decide (e = io_EOF))|]; simpl;
        by rewrite !app_s_assoc.
  - destruct (rerr x) as [e|]; [destruct (decide (e = io_EOF))|]; simpl;
      by apply offered_refl.
Qed.

Lemma writeChunks_offered (r : Reader) (w : Writer) :
  well_formed w → offered w (chunks (delivered r)) (writeChunks r w).1.
Proof.
  revert w. induction r as [|x r IH]; intros w Hwf.
  - by apply offered_refl.
  - cbn [writeChunks delivered]. rewrite chunks_app.
    pose proof (writeChunks_step_offered x w Hwf) as Hoff.
    destruct (writeChunks_step x w) as [w1 [|res]] eqn:Hstep; simpl in Hoff.
    + rewrite (writeChunks_step_Continue _ _ _ Hstep).
      eapply offered_trans; [exact Hoff|]. apply IH, Hoff.
    + simpl. apply writeChunks_step_Return in Hstep as [(e & -> & _)|(e & _ & He & _)].
      * simpl. by rewrite app_s_nil_r.
      * apply offered_more; [done|]. by rewrite He.
Qed.

(** The loop reads no further than the first read that reports
    [io.EOF] or an error. *)
Lemma writeChunks_stops (pre : Reader) (x : ReadResult) (rest : Reader) (w : Writer) :
  rerr x ≠ None →
  writeChunks (pre ++ x :: rest) w = writeChunks (pre ++ [x]) w.
Proof.
  intros Hx. revert w. induction pre as [|y pre IH]; intros w; simpl.
  - destruct (writeChunks_step x w) as [w1 [|res]] eqn:Hstep; [|done].
    by apply writeChunks_step_Continue in Hstep.
  - destruct (writeChunks_step y w) as [w1 [|res]]; [apply IH|done].
Qed.

Section AnyConnection.

Variable Header_Write : Header → string.

Lemma before_loop_offered (status : nat) (w : ResponseWriter) :
  well_formed (rw w) →
  offered (rw w) (response_head Header_Write status (header w))
          (before_loop Header_Write status w).
Proof.
  intros Hwf. unfold before_loop, response_head.
  pose proof (WriteString_offered (rw w) (status_line status) Hwf) as H1.
  pose proof (WriteString_offered _ (Header_Write (header w)) (proj1 H1)) as H2.
  pose proof (WriteString_offered _ CRLF (proj1 H2)) as H3.
  pose proof (offered_trans _ _ _ _ _ (offered_trans _ _ _ _ _ H1 H2) H3) as H.
  by rewrite app_s_assoc in H.
Qed.

(** The writer that [writeResponse] leaves, but for the closing of the
    connection, was offered the whole response. *)
Lemma writeResponse_offered (status : nat) (w : ResponseWriter) (out : Reader) :
  hijack w = Hijackable → well_formed (rw w) →
  ∃ b, offered (rw w) (response_bytes Header_Write status (header w) out) b
       ∧ rw (writeResponse Header_Write status w out).1
         = mkWriter (conn_Close (wr b)) (bufsize b) (buf b) (werr b)
       ∧ (werr b = None →
            buf b = EmptyString
            ∧ (writeResponse Header_Write status w out).2 = read_outcome out).
Proof.
  intros Hh Hwf. unfold writeResponse. rewrite Hh.
  fold (before_loop Header_Write status w).
  pose proof (before_loop_offered status w Hwf) as H0.
  pose proof (writeChunks_offered out _ (proj1 H0)) as H1.
  pose proof (writeChunks_returns out (before_loop Header_Write status w)) as Hres.
  destruct (writeChunks out (before_loop Header_Write status w)) as [wl res].
  simpl in H1, Hres.
  pose proof (WriteString_offered wl ("0" +:+ CRLF)%string (proj1 H1)) as H2.
  set (w2 := discard (WriteString wl _)) in *.
  assert (∃ w3, w3 = match res with
                     | Some e => discard (WriteString w2 (trailer_line e))
                     | None => w2
                     end
                ∧ offered w2 match res with
                             | Some e => trailer_line e
                             | None => EmptyString
                             end w3) as (w3 & <- & H3).
  { eexists. split; [reflexivity|]. destruct res as [e|].
    - apply WriteString_offered, H2.
    - apply offered_refl, H2. }
  pose proof (WriteString_offered w3 CRLF (proj1 H3)) as H4.
  set (w4 := discard (WriteString w3 CRLF)) in *.
  destruct (Flush_offered w4 (proj1 H4)) as (H5 & _ & Hbuf).
  pose proof (offered_trans _ _ _ _ _ (offered_trans _ _ _ _ _
    (offered_trans _ _ _ _ _ H2 H3) H4) H5) as Htail.
  rewrite !app_s_assoc, app_s_nil_r in Htail. fold (response_tail res) in Htail.
  exists (Flush w4).1. simpl. split_and!; [|done|].
  - destruct Hres as [->|(e & -> & He)].
    + pose proof (offered_trans _ _ _ _ _ (offered_trans _ _ _ _ _ H0 H1) Htail) as H.
      unfold response_bytes. by rewrite app_s_assoc in H.
    + destruct Htail as (_ & _ & _ & _ & Hfix & _). rewrite (Hfix e He).
      unfold response_bytes. rewrite <- !app_s_assoc.
      apply offered_more; [|by rewrite He].
      by eapply offered_trans.
  - intros Hnone. split; [by apply Hbuf|].
    destruct Hres as [->|(e & -> & He)]; [done|].
    destruct Htail as (_ & _ & _ & _ & Hfix & _). rewrite (Hfix e He) in Hnone. congruence.
Qed.

End AnyConnection.

Lemma delivered_nonempty (r : Reader) : Forall (λ d, d ≠ EmptyString) (delivered r).
Proof.
  induction r as [|x r IH]; [constructor|]. cbn [delivered]. apply Forall_app. split.
  - destruct (decide (0 < String.length (rdata x))) as [Hn|]; [|constructor].
    repeat constructor. intros Hd. rewrite Hd in Hn. simpl in Hn. lia.
  - destruct (rerr x); [constructor|exact IH].
Qed.

(** X1.  Whatever the connection does, after a hijack the bytes it has
    got from [writeResponse] are what it had before, followed by an
    initial part of the response (head, chunk records of the non-empty
    reads, terminal chunk, trailer if a read failed, blank line): nothing
    else and nothing out of order is ever sent.  If the writer ends
    without an error the response is on the wire in full and the
    returned error is what the reads ended with.  The connection is
    closed in every case. *)
Theorem X1_wire_is_initial_part_of_response
    (Header_Write : Header → string) (status : nat) (w : ResponseWriter)
    (out : Reader) :
  hijack w = Hijackable →
  well_formed (rw w) →
  let r := writeResponse Header_Write status w out in
  prefix_s (wire (wr (rw w))) (wire (wr (rw r.1)))
  ∧ prefix_s (wire (wr (rw r.1)))
             (pending (rw w) +:+ response_bytes Header_Write status (header w) out)
  ∧ (werr (rw r.1) = None →
       wire (wr (rw r.1))
       = pending (rw w) +:+ response_bytes Header_Write status (header w) out
       ∧ r.2 = read_outcome out)
  ∧ closed (wr (rw r.1)) = true.
Proof.
  intros Hh Hwf r. subst r.
  destruct (writeResponse_offered Header_Write status w out Hh Hwf)
    as (b & (Hwf' & _ & _ & Hmono & _ & Hp) & -> & Hnone).
  simpl. split_and!; [done| | |done].
  - destruct (werr b).
    + eapply prefix_s_trans; [|exact Hp]. apply prefix_s_app.
    + rewrite <- Hp. apply prefix_s_app.
  - intros He. destruct (Hnone He) as [Hbuf Hres]. rewrite He in Hp.
    split; [|done]. rewrite <- Hp. unfold pending. by rewrite Hbuf, app_s_nil_r.
Qed.

(** A connection that breaks after 30 bytes. *)
Lemma X1_witness :
  let w := mkRW ∅ Hijackable false
             (mkWriter (mkConn EmptyString (Some (30, ConnError "broken pipe")) false)
                       16 EmptyString None)
             None EmptyString [] in
  let out := [read_ok "hello"; read_ok "world"; read_eof]%string in
  hijack w = Hijackable
  ∧ well_formed (rw w)
  ∧ wire (wr (rw (writeResponse plain_Header_Write 200 w out).1))
    = ("HTTP/1.1 200 OK" +:+ CRLF +:+ CRLF +:+ "5" +:+ CRLF +:+ "hello" +:+ CRLF +:+ "5")%string
  ∧ prefix_s (wire (wr (rw (writeResponse plain_Header_Write 200 w out).1)))
             (response_bytes plain_Header_Write 200 ∅ out).
Proof.
  cbv zeta.
  assert (well_formed (mkWriter (mkConn EmptyString (Some (30, ConnError "broken pipe")) false)
                         16 EmptyString None)) as Hwf.
  { unfold well_formed. simpl. lia. }
  split_and!; [reflexivity|exact Hwf|vm_compute; reflexivity|].
  exact (proj1 (proj2 (X1_wire_is_initial_part_of_response plain_Header_Write 200
    (mkRW ∅ Hijackable false
       (mkWriter (mkConn EmptyString (Some (30, ConnError "broken pipe")) false)
                 16 EmptyString None)
       None EmptyString [])
    [read_ok "hello"; read_ok "world"; read_eof]%string eq_refl Hwf))).
Defined.

(** X2.  [writeResponse] does not read past the first read that reports
    [io.EOF] or an error: what the source would give afterwards does not
    matter, on any connection. *)
Theorem X2_nothing_is_read_after_the_end
    (Header_Write : Header → string) (status : nat) (w : ResponseWriter)
    (pre : Reader) (x : ReadResult) (rest : Reader) :
  rerr x ≠ None →
  writeResponse Header_Write status w (pre ++ x :: rest)
  = writeResponse Header_Write status w (pre ++ [x]).
Proof.
  intros Hx. unfold writeResponse. by rewrite (writeChunks_stops pre x rest).
Qed.

Lemma X2_witness :
  rerr read_eof ≠ None
  ∧ writeResponse plain_Header_Write 200 sample_ResponseWriter
      ([read_ok "a"%string] ++ read_eof :: [read_ok "never read"%string])
    = writeResponse plain_Header_Write 200 sample_ResponseWriter
        ([read_ok "a"%string] ++ [read_eof]).
Proof.
  assert (rerr read_eof ≠ None) as Hx by discriminate.
  split; [exact Hx|].
  exact (X2_nothing_is_read_after_the_end plain_Header_Write 200 sample_ResponseWriter
           [read_ok "a"%string] read_eof [read_ok "never read"%string] Hx).
Defined.

(** X3.  When, after N non-empty reads, a read fails with an error other
    than [io.EOF], [writeResponse] on a connection that accepts the
    writes emits the N chunk records, then a chunk record for the bytes
    that the failing read itself returned, if any, then the terminal
    chunk, one X-Stream-Error line with the sanitized message and the
    blank line, and returns that error. *)
Theorem X3_failed_read_ends_in_trailer
    (Header_Write : Header → string) (status : nat) (w : ResponseWriter)
    (ds : list string) (d : string) (e : error) (rest : Reader) :
  hijack w = Hijackable →
  healthy (rw w) →
  Forall (λ d, d ≠ EmptyString) ds →
  e ≠ io_EOF →
  let out := (read_ok <$> ds) ++ mkRead d (Some e) :: rest in
  let r := writeResponse Header_Write status w out in
  r.2 = Some e
  ∧ wire (wr (rw r.1))
    = pending (rw w)
      +:+ status_line status +:+ Header_Write (header w) +:+ CRLF
      +:+ chunks (ds ++ if decide (d = EmptyString) then [] else [d])
      +:+ "0" +:+ CRLF
      +:+ "X-Stream-Error: " +:+ sanitizedErrStr e +:+ CRLF
      +:+ CRLF.
Proof.
  intros Hh Hw Hne He out r. subst r out.
  destruct (writeResponse_healthy Header_Write status w
              ((read_ok <$> ds) ++ mkRead d (Some e) :: rest) Hh Hw)
    as (Hres & Hwire & _).
  rewrite read_outcome_until in Hres, Hwire by done.
  rewrite delivered_until in Hwire by done.
  simpl in Hres, Hwire. rewrite decide_False in Hres, Hwire by done.
  split; [exact Hres|]. rewrite Hwire.
  assert ((if decide (0 < String.length d) then [d] else [])
          = (if decide (d = EmptyString) then [] else [d])) as ->.
  { destruct (decide (d = EmptyString)) as [->|Hd]; [done|].
    rewrite decide_True; [done|by apply length_pos_s]. }
  unfold response_head, response_tail, trailer_line, StreamErrHeader. by norm_app.
Qed.

Lemma X3_witness :
  hijack sample_ResponseWriter = Hijackable
  ∧ healthy (rw sample_ResponseWriter)
  ∧ Forall (λ d, d ≠ EmptyString) ["one"%string]
  ∧ SourceError "disk gone" ≠ io_EOF
  ∧ let r := writeResponse plain_Header_Write 200 sample_ResponseWriter
               [read_ok "one"; mkRead "tw" (Some (SourceError "disk gone"))] in
    r.2 = Some (SourceError "disk gone")
    ∧ wire (wr (rw r.1))
      = ("HTTP/1.1 200 OK" +:+ CRLF +:+ CRLF
         +:+ "3" +:+ CRLF +:+ "one" +:+ CRLF
         +:+ "2" +:+ CRLF +:+ "tw" +:+ CRLF
         +:+ "0" +:+ CRLF
         +:+ "X-Stream-Error: disk gone" +:+ CRLF
         +:+ CRLF)%string.
Proof.
  assert (healthy (rw sample_ResponseWriter)) as Hw.
  { unfold healthy. simpl. split_and!; [done|done|lia|lia]. }
  assert (Forall (λ d, d ≠ EmptyString) ["one"%string]) as Hne.
  { repeat constructor; discriminate. }
  assert (SourceError "disk gone" ≠ io_EOF) as He by discriminate.
  split_and!; [done|done|done|done|].
  pose proof (X3_failed_read_ends_in_trailer plain_Header_Write 200
                sample_ResponseWriter ["one"%string] "tw" (SourceError "disk gone") []
                eq_refl Hw Hne He) as (H1 & H2).
  split; [exact H1|]. etrans; [exact H2|]. vm_compute. reflexivity.
Defined.

(** X4.  On a connection that accepts the writes, for every source, a
    client that decodes the chunked body that follows the head recovers
    exactly the non-empty payloads that were read, in order, and is left
    with the trailer section: the X-Stream-Error line if an error was
    returned, nothing otherwise, and the blank line. *)
Theorem X4_body_decodes_to_the_payloads_read
    (Header_Write : Header → string) (status : nat) (w : ResponseWriter)
    (out : Reader) :
  hijack w = Hijackable →
  healthy (rw w) →
  let r := writeResponse Header_Write status w out in
  ∃ body,
    wire (wr (rw r.1))
    = pending (rw w) +:+ response_head Header_Write status (header w) +:+ body
    ∧ decode_chunked (S (List.length (delivered out))) body
      = Some (delivered out,
              match r.2 with
              | Some e => trailer_line e
              | None => EmptyString
              end +:+ CRLF).
Proof.
  intros Hh Hw r. subst r.
  destruct (writeResponse_healthy Header_Write status w out Hh Hw) as (Hres & Hwire & _).
  exists (chunks (delivered out) +:+ response_tail (read_outcome out)).
  split; [exact Hwire|]. rewrite Hres. unfold response_tail.
  apply decode_chunked_chunks, delivered_nonempty.
Qed.

Lemma X4_witness :
  hijack sample_ResponseWriter = Hijackable
  ∧ healthy (rw sample_ResponseWriter)
  ∧ ∃ body,
      wire (wr (rw (writeResponse plain_Header_Write 200 sample_ResponseWriter
                      [read_ok "one"; read_ok EmptyString; read_ok "three"; read_eof]).1))
      = ("HTTP/1.1 200 OK" +:+ CRLF +:+ CRLF +:+ body)%string
      ∧ decode_chunked 3 body = Some (["one"; "three"]%string, CRLF).
Proof.
  assert (healthy (rw sample_ResponseWriter)) as Hw.
  { unfold healthy. simpl. split_and!; [done|done|lia|lia]. }
  split_and!; [done|done|].
  destruct (X4_body_decodes_to_the_payloads_read plain_Header_Write 200
              sample_ResponseWriter
              [read_ok "one"; read_ok EmptyString; read_ok "three"; read_eof]
              eq_refl Hw) as (body & H1 & H2).
  exists body. split; [exact H1|exact H2].
Defined.

(** X5.  The trailer is one header line, whatever the error message
    contains: a reader of lines finds the name, a colon, a space and the
    sanitized message up to the first CRLF, with no CR or LF inside, and
    what follows the trailer line is untouched.  An error message cannot
    add lines to the trailer section. *)
Theorem X5_trailer_is_a_single_line (e : error) (rest : string) :
  read_line (trailer_line e +:+ rest)
  = Some ("X-Stream-Error: " +:+ sanitizedErrStr e, rest)
  ∧ ¬ occurs CR ("X-Stream-Error: " +:+ sanitizedErrStr e)
  ∧ ¬ occurs LF ("X-Stream-Error: " +:+ sanitizedErrStr e).
Proof.
  assert (∀ c, (c = CR ∨ c = LF) → ¬ occurs c ("X-Stream-Error: " +:+ sanitizedErrStr e))
    as Hno.
  { intros c Hc. rewrite occurs_app. intros [H|H].
    - simpl in H. destruct Hc as [-> | ->];
        repeat (destruct H as [H|H]; [discriminate H|]); done.
    - unfold sanitizedErrStr in H. destruct Hc as [-> | ->].
      + exact (index0_Split_no_sep _ _ H).
      + exact (index0_Split_keeps_absent _ _ _ (index0_Split_no_sep _ _) H). }
  split_and!; [|apply Hno; auto..].
  unfold trailer_line, StreamErrHeader. rewrite !app_s_assoc.
  rewrite <- (app_s_assoc "X-Stream-Error" ": " (sanitizedErrStr e +:+ CRLF +:+ rest)).
  rewrite <- (app_s_assoc _ (sanitizedErrStr e)).
  apply read_line_app. apply Hno. auto.
Qed.

(** X6.  [sanitizedErrStr] leaves a message without CR and LF as it is,
    and sanitizing a sanitized message changes nothing. *)
Theorem X6_sanitizedErrStr_keeps_single_lines (e : error) :
  (¬ occurs CR (Error e) → ¬ occurs LF (Error e) → sanitizedErrStr e = Error e)
  ∧ sanitizedErrStr (errors_New (sanitizedErrStr e)) = sanitizedErrStr e.
Proof.
  assert (∀ s, ¬ occurs CR s → ¬ occurs LF s →
               truncate_at_first_newline_or_cr s = s) as Hid.
  { induction s as [|c s IH]; [done|]. simpl. intros Hcr Hlf.
    rewrite decide_False by (intros [-> | ->]; tauto).
    f_equal. apply IH; tauto. }
  unfold sanitizedErrStr. split.
  - intros Hcr Hlf. rewrite Split_twice_truncates. by apply Hid.
  - cbn [Error]. rewrite (Split_twice_truncates (index0 _)). apply Hid.
    + apply index0_Split_no_sep.
    + apply index0_Split_keeps_absent, index0_Split_no_sep.
Qed.

Lemma X6_witness :
  ¬ occurs CR (Error (SourceError "connection reset by peer"))
  ∧ ¬ occurs LF (Error (SourceError "connection reset by peer"))
  ∧ sanitizedErrStr (SourceError "connection reset by peer")
    = "connection reset by peer"%string.
Proof.
  assert (∀ c, (c = CR ∨ c = LF) →
               ¬ occurs c (Error (SourceError "connection reset by peer"))) as Hno.
  { intros c Hc H. simpl in H.
    destruct Hc as [-> | ->]; repeat (destruct H as [H|H]; [discriminate H|]); done. }
  split_and!; [apply Hno; auto..|].
  exact (proj1 (X6_sanitizedErrStr_keeps_single_lines
                  (SourceError "connection reset by peer"))
               (Hno CR (or_introl eq_refl)) (Hno LF (or_intror eq_refl))).
Defined.

(** ** The order of the operator's headers *)

Lemma range_headers_lookup (l : list (string * list string)) (h : Header) (k : string) :
  NoDup l.*1 →
  range_headers l h !! k
  = if skipAPIHeader k then h !! k
    else match (list_to_map l : Header) !! k with
         | Some v => Some v
         | None => h !! k
         end.
Proof.
  revert h. induction l as [|[i x] l IH]; intros h Hnd.
  - simpl. rewrite lookup_empty. by destruct (skipAPIHeader k).
  - rewrite fmap_cons in Hnd. apply NoDup_cons in Hnd as [Hi Hnd]. simpl in Hi.
    change (range_headers ((i, x) :: l) h)
      with (range_headers l (if negb (skipAPIHeader i) then <[i:=x]> h else h)).
    rewrite IH by done.
    change (list_to_map ((i, x) :: l) : Header) with (<[i:=x]> (list_to_map l : Header)).
    destruct (skipAPIHeader k) eqn:Hk.
    + destruct (skipAPIHeader i) eqn:Hski; simpl; [done|].
      rewrite lookup_insert_ne; [done|]. intros ->. congruence.
    + destruct (decide (i = k)) as [->|Hne].
      * rewrite Hk. simpl. rewrite !lookup_insert_eq.
        by rewrite (not_elem_of_list_to_map_1 (M := gmap string) l k Hi).
      * rewrite (lookup_insert_ne (list_to_map l)) by done.
        destruct (skipAPIHeader i); simpl; [done|]. by rewrite lookup_insert_ne.
Qed.

(** X7.  The loop over the operator's headers gives the same header map
    in whatever order the entries of the map are visited: for every
    listing of the entries without repetition the result is the one of
    [apply_headers]. *)
Theorem X7_header_loop_is_order_independent
    (extra h : Header) (l : list (string * list string)) :
  l ≡ₚ map_to_list extra →
  range_headers l h = apply_headers extra h.
Proof.
  intros Hperm. apply map_eq. intros k.
  assert (NoDup l.*1) as Hnd.
  { rewrite Hperm. apply NoDup_fst_map_to_list. }
  rewrite range_headers_lookup, apply_headers_lookup by done.
  assert ((list_to_map l : Header) = extra) as ->; [|done].
  rewrite <- (list_to_map_to_list extra). by apply list_to_map_proper.
Qed.

Lemma X7_witness :
  reverse (map_to_list sample_extra_headers) ≡ₚ map_to_list sample_extra_headers
  ∧ range_headers (reverse (map_to_list sample_extra_headers)) sample_cors_headers
    = apply_headers sample_extra_headers sample_cors_headers.
Proof.
  assert (reverse (map_to_list sample_extra_headers) ≡ₚ map_to_list sample_extra_headers)
    as Hperm by apply reverse_Permutation.
  split; [exact Hperm|].
  exact (X7_header_loop_is_order_independent sample_extra_headers sample_cors_headers
           (reverse (map_to_list sample_extra_headers)) Hperm).
Defined.

(** ** When the connection is hijacked *)

Lemma WriteHeader_frame (w : ResponseWriter) (code : nat) :
  hijacked (WriteHeader w code) = hijacked w ∧ rw (WriteHeader w code) = rw w.
Proof. unfold WriteHeader. by destruct (sent_status w). Qed.

Lemma ResponseWriter_Write_frame (w : ResponseWriter) (p : string) :
  hijacked (ResponseWriter_Write w p) = hijacked w
  ∧ rw (ResponseWriter_Write w p) = rw w.
Proof. unfold ResponseWriter_Write. simpl. apply WriteHeader_frame. Qed.

Lemma sendResponse_hijacked (Header_Write : Header → string) (w : ResponseWriter)
    (r : http_Request) (req : Request) (res : Response) :
  hijacked w = false →
  hijacked (sendResponse Header_Write w r req res) = true
  ↔ ∃ mime out, guessMimeType res = (mime, None) ∧ res_Reader res = (out, None)
                ∧ Method r ≠ "HEAD"%string ∧ hijack w = Hijackable.
Proof.
  intros Hw. unfold sendResponse.
  destruct (guessMimeType res) as [mime [e|]].
  { destruct (http_Error_frame w (Error e) StatusInternalServerError) as (-> & _).
    rewrite Hw. split; [done|]. by intros (? & ? & ? & _). }
  destruct (res_Reader res) as [out [e|]].
  { destruct (http_Error_frame w (Error e) StatusInternalServerError) as (-> & _).
    rewrite Hw. split; [done|]. by intros (? & ? & _ & ? & _). }
  destruct (decide (Method r = "HEAD"%string)) as [Hm|Hm].
  { simpl. rewrite Hw. split; [done|]. by intros (? & ? & _ & _ & ? & _). }
  unfold writeResponse. simpl.
  destruct (hijack w) eqn:Hh; simpl.
  - rewrite Hw. split; [done|]. by intros (? & ? & _ & _ & _ & ?).
  - rewrite Hw. split; [done|]. by intros (? & ? & _ & _ & _ & ?).
  - destruct (writeChunks out _) as [wl [e|]]; simpl; (split; [|done]);
      intros _; by exists mime, out.
Qed.

(** X8.  [ServeHTTP] takes the connection over in exactly one case: the
    request was parsed, the node and the root context were obtained, the
    mime type and the reader of the result are available, the method is
    not HEAD, and the response writer can be hijacked.  In every other
    case the connection is left to the HTTP library. *)
Theorem X8_when_the_connection_is_hijacked
    (Header_Write : Header → string)
    (Parse : http_Request → Command → Request * option error)
    (SetRootContext : Request → option error)
    (i : internalHandler) (w : ResponseWriter) (r : http_Request) :
  hijacked w = false →
  hijacked (ServeHTTP Header_Write Parse SetRootContext i w r) = true
  ↔ ∃ req mime out,
      Parse r (root i) = (req, None)
      ∧ GetNode (ctx i) = None
      ∧ SetRootContext req = None
      ∧ guessMimeType (Call (root i) req) = (mime, None)
      ∧ res_Reader (Call (root i) req) = (out, None)
      ∧ Method r ≠ "HEAD"%string
      ∧ hijack w = Hijackable.
Proof.
  intros Hw. unfold ServeHTTP.
  destruct (Parse r (root i)) as [req [e|]].
  { assert (hijacked (ResponseWriter_Write
              (if decide (e = ErrNotFound)
               then WriteHeader (with_log w (LogDebug "Incoming API request: ")) StatusNotFound
               else WriteHeader (with_log w (LogDebug "Incoming API request: ")) StatusBadRequest)
              (Error e)) = hijacked w) as ->.
    { rewrite (proj1 (ResponseWriter_Write_frame _ _)).
      by destruct (decide (e = ErrNotFound)); rewrite (proj1 (WriteHeader_frame _ _)). }
    rewrite Hw. split; [done|]. by intros (? & ? & ? & ? & _). }
  destruct (GetNode (ctx i)) as [e|].
  { destruct (http_Error_frame (with_log w (LogDebug "Incoming API request: "))
                ("cmds/http: couldn't GetNode(): " +:+ Error e) StatusInternalServerError)
      as (-> & _).
    simpl. rewrite Hw. split; [done|]. by intros (? & ? & ? & _ & ? & _). }
  destruct (SetRootContext req) as [e|] eqn:Hs.
  { destruct (http_Error_frame (with_log w (LogDebug "Incoming API request: "))
                (Error e) StatusInternalServerError) as (-> & _).
    simpl. rewrite Hw. split; [done|].
    intros (req' & ? & ? & [= <-] & _ & ? & _). congruence. }
  rewrite sendResponse_hijacked by done. simpl. split.
  - intros (mime & out & ? & ? & ? & ?). by exists req, mime, out.
  - intros (req' & mime & out & [= <-] & _ & _ & ? & ? & ? & ?). by exists mime, out.
Qed.

Lemma X8_witness :
  hijacked sample_ResponseWriter = false
  ∧ hijacked (ServeHTTP plain_Header_Write (λ _ _, (sample_Request "json", None))
                (λ _, None)
                (mkInternal (mkContext None)
                   (mkCommand (λ req, sample_Response "json" None [read_ok "{}"; read_eof]))
                   (mkServerConfig ∅ None))
                sample_ResponseWriter (mkHttpRequest "GET")) = true.
Proof.
  split; [reflexivity|].
  apply (X8_when_the_connection_is_hijacked plain_Header_Write
           (λ _ _, (sample_Request "json", None)) (λ _, None)
           (mkInternal (mkContext None)
              (mkCommand (λ req, sample_Response "json" None [read_ok "{}"; read_eof]))
              (mkServerConfig ∅ None))
           sample_ResponseWriter (mkHttpRequest "GET") eq_refl).
  exists (sample_Request "json"), "application/json"%string, [read_ok "{}"; read_eof].
  split_and!; try reflexivity. discriminate.
Defined.

(** ** Requests that are turned away *)

(** X9.  A request that cannot be parsed is answered on the library's
    path with 404 if the error is [ErrNotFound] and with 400 otherwise;
    the body is the message of the error as it is.  The operator's extra
    headers are not applied, no header is set, and the connection is not
    touched. *)
Theorem X9_unparsed_request_is_answered_404_or_400
    (Header_Write : Header → string)
    (Parse : http_Request → Command → Request * option error)
    (SetRootContext : Request → option error)
    (i : internalHandler) (w : ResponseWriter) (r : http_Request)
    (req : Request) (e : error) :
  Parse r (root i) = (req, Some e) →
  sent_status w = None →
  let w' := ServeHTTP Header_Write Parse SetRootContext i w r in
  sent_status w' = Some (if decide (e = ErrNotFound) then 404 else 400)
  ∧ sent_body w' = sent_body w +:+ Error e
  ∧ header w' = header w
  ∧ hijacked w' = hijacked w
  ∧ rw w' = rw w.
Proof.
  intros Hp Hs w'. subst w'. unfold ServeHTTP. rewrite Hp.
  unfold ResponseWriter_Write, WriteHeader. simpl. rewrite Hs.
  by destruct (decide (e = ErrNotFound)).
Qed.

Lemma X9_witness :
  let i := mkInternal (mkContext None)
             (mkCommand (λ req, sample_Response "json" None []))
             (mkServerConfig sample_extra_headers None) in
  let w' := ServeHTTP plain_Header_Write (λ _ _, (mkRequest ∅, Some ErrNotFound))
              (λ _, None) i sample_ResponseWriter (mkHttpRequest "GET") in
  sent_status sample_ResponseWriter = None
  ∧ sent_status w' = Some 404
  ∧ sent_body w' = "404 page not found"%string
  ∧ header w' = ∅.
Proof.
  cbv zeta. split; [reflexivity|].
  destruct (X9_unparsed_request_is_answered_404_or_400 plain_Header_Write
              (λ _ _, (mkRequest ∅, Some ErrNotFound)) (λ _, None)
              (mkInternal (mkContext None)
                 (mkCommand (λ req, sample_Response "json" None []))
                 (mkServerConfig sample_extra_headers None))
              sample_ResponseWriter (mkHttpRequest "GET") (mkRequest ∅) ErrNotFound
              eq_refl eq_refl) as (H1 & H2 & H3 & _).
  split_and!; [exact H1|exact H2|exact H3].
Defined.






(** ** The headers of a streamed response *)

Lemma assemble_headers_markers (h : Header) (mime : string) (req : Request)
    (res : Response) :
  assemble_headers h mime req res !! streamHeader
  = (if is_Reader (res_Output res) then Some ["1"%string] else h !! streamHeader)
  ∧ assemble_headers h mime req res !! channelHeader
    = (if is_Chan (res_Output res) then Some ["1"%string] else h !! channelHeader)
  ∧ assemble_headers h mime req res !! contentLengthHeader
    = (if decide (0 < res_Length res)%N then Some [fmt_d (res_Length res)]
       else h !! contentLengthHeader)
  ∧ assemble_headers h mime req res !! transferEncodingHeader = Some ["chunked"%string].
Proof.
  unfold assemble_headers, Header_Set.
  destruct (is_Reader (res_Output res)), (is_Chan (res_Output res));
    simpl; repeat case_decide; split_and!;
    repeat (rewrite lookup_insert_eq || rewrite lookup_insert_ne by done); done.
Qed.

Lemma parse_d_fmt_d (n : N) : parse_d (fmt_d n) = Some n.
Proof.
  unfold parse_d, fmt_d. rewrite NilEmpty.usu. simpl. by rewrite Unsigned.of_to.
Qed.

(** X12.  A result whose output is a byte stream is marked with
    X-Stream-Output: 1, and [sendResponse] sets no Content-Type for it,
    whatever the encoding: the Content-Type entry of the header map is
    left as it was found. *)
Theorem X12_byte_stream_has_marker_and_no_content_type
    (Header_Write : Header → string) (w : ResponseWriter) (r : http_Request)
    (req : Request) (res : Response) (mime : string) (out : Reader) :
  guessMimeType res = (mime, None) →
  res_Reader res = (out, None) →
  is_Reader (res_Output res) = true →
  let w' := sendResponse Header_Write w r req res in
  header w' !! streamHeader = Some ["1"%string]
  ∧ header w' !! contentTypeHeader = header w !! contentTypeHeader
  ∧ header w' !! channelHeader = header w !! channelHeader.
Proof.
  intros Hg Hr Ho w'. subst w'. rewrite (sendResponse_header _ _ _ _ _ mime out Hg Hr).
  destruct (assemble_headers_markers (header w) mime req res) as (H1 & H2 & _).
  rewrite H1, H2, assemble_headers_Content_Type, Ho.
  assert (is_Chan (res_Output res) = false) as Hc by by destruct (res_Output res).
  assert (final_mime mime req res = EmptyString) as Hm.
  { unfold final_mime. by rewrite Ho, Hc. }
  rewrite Hc, Hm. by rewrite decide_True.
Qed.

Lemma X12_witness :
  let res := mkResponse (sample_Request "json") None (OutReader [read_ok "raw"; read_eof])
               0 ([read_ok "raw"; read_eof], None) in
  let w' := sendResponse plain_Header_Write sample_ResponseWriter
              (mkHttpRequest "GET") (sample_Request "json") res in
  guessMimeType res = ("application/json"%string, None)
  ∧ is_Reader (res_Output res) = true
  ∧ header w' !! streamHeader = Some ["1"%string]
  ∧ header w' !! contentTypeHeader = None.
Proof.
  cbv zeta.
  destruct (X12_byte_stream_has_marker_and_no_content_type plain_Header_Write
              sample_ResponseWriter (mkHttpRequest "GET") (sample_Request "json")
              (mkResponse (sample_Request "json") None
                 (OutReader [read_ok "raw"; read_eof]) 0 ([read_ok "raw"; read_eof], None))
              "application/json" [read_ok "raw"; read_eof] eq_refl eq_refl eq_refl)
    as (H1 & H2 & _).
  split_and!; [reflexivity|reflexivity|exact H1|exact H2].
Defined.

(** X13.  A result whose output is a channel, of either direction, is
    marked with X-Chunked-Output: 1.  If the request asks for streamed
    channels (the option "stream-channels" is the boolean true) the
    Content-Type is application/json whatever the encoding; otherwise,
    also when the option is absent or is not a boolean, it is the guessed
    mime type, or is left as it was when the guess is empty. *)
Theorem X13_channel_has_marker_and_json_when_streamed
    (Header_Write : Header → string) (w : ResponseWriter) (r : http_Request)
    (req : Request) (res : Response) (mime : string) (out : Reader) :
  guessMimeType res = (mime, None) →
  res_Reader res = (out, None) →
  is_Chan (res_Output res) = true →
  let w' := sendResponse Header_Write w r req res in
  header w' !! channelHeader = Some ["1"%string]
  ∧ header w' !! streamHeader = header w !! streamHeader
  ∧ (Request_Option req "stream-channels" = Some (OptBool true) →
       header w' !! contentTypeHeader = Some ["application/json"%string])
  ∧ (Request_Option req "stream-channels" ≠ Some (OptBool true) →
       header w' !! contentTypeHeader
       = if decide (mime = EmptyString) then header w !! contentTypeHeader
         else Some [mime]).
Proof.
  intros Hg Hr Ho w'. subst w'. rewrite (sendResponse_header _ _ _ _ _ mime out Hg Hr).
  destruct (assemble_headers_markers (header w) mime req res) as (H1 & H2 & _).
  rewrite H1, H2, assemble_headers_Content_Type, Ho.
  assert (is_Reader (res_Output res) = false) as Hc by by destruct (res_Output res).
  rewrite Hc. split_and!; [done|done| |].
  - intros Hopt.
    assert (final_mime mime req res = "application/json"%string) as ->.
    { unfold final_mime. by rewrite Ho, Hopt. }
    by rewrite decide_False.
  - intros Hopt.
    assert (final_mime mime req res = mime) as ->; [|done].
    unfold final_mime. rewrite Ho, Hc.
    destruct (Request_Option req "stream-channels") as [[?|[]|]|]; done.
Qed.

Lemma X13_witness :
  let req := mkRequest {[ "stream-channels"%string := OptBool true ]} in
  let res := mkResponse (sample_Request "text") None OutChan 0 ([read_eof], None) in
  guessMimeType res = ("text/plain"%string, None)
  ∧ is_Chan (res_Output res) = true
  ∧ Request_Option req "stream-channels" = Some (OptBool true)
  ∧ header (sendResponse plain_Header_Write sample_ResponseWriter
              (mkHttpRequest "GET") req res) !! contentTypeHeader
    = Some ["application/json"%string].
Proof.
  cbv zeta.
  destruct (X13_channel_has_marker_and_json_when_streamed plain_Header_Write
              sample_ResponseWriter (mkHttpRequest "GET")
              (mkRequest {[ "stream-channels"%string := OptBool true ]})
              (mkResponse (sample_Request "text") None OutChan 0 ([read_eof], None))
              "text/plain" [read_eof] eq_refl eq_refl eq_refl)
    as (_ & _ & H3 & _).
  split_and!; [reflexivity|reflexivity|reflexivity|exact (H3 eq_refl)].
Defined.

(** X14.  Every response that [sendResponse] streams carries
    Transfer-Encoding: chunked; it carries a Content-Length beside it
    exactly when the result knows its length (a length above 0), as the
    decimal number that a client reads back to that length; with length 0
    the Content-Length entry is left as it was. *)
Theorem X14_transfer_encoding_and_content_length
    (Header_Write : Header → string) (w : ResponseWriter) (r : http_Request)
    (req : Request) (res : Response) (mime : string) (out : Reader) :
  guessMimeType res = (mime, None) →
  res_Reader res = (out, None) →
  let w' := sendResponse Header_Write w r req res in
  header w' !! transferEncodingHeader = Some ["chunked"%string]
  ∧ ((0 < res_Length res)%N →
       ∃ s, header w' !! contentLengthHeader = Some [s]
            ∧ parse_d s = Some (res_Length res))
  ∧ (res_Length res = 0%N →
       header w' !! contentLengthHeader = header w !! contentLengthHeader).
Proof.
  intros Hg Hr w'. subst w'. rewrite (sendResponse_header _ _ _ _ _ mime out Hg Hr).
  destruct (assemble_headers_markers (header w) mime req res) as (_ & _ & H3 & H4).
  rewrite H3, H4. split_and!; [done| |].
  - intros Hpos. rewrite decide_True by done. eexists. split; [done|apply parse_d_fmt_d].
  - intros ->. by rewrite decide_False by lia.
Qed.

Lemma X14_witness :
  let res := mkResponse (sample_Request "json") None OutValue 1234 ([read_eof], None) in
  let w' := sendResponse plain_Header_Write sample_ResponseWriter
              (mkHttpRequest "GET") (sample_Request "json") res in
  guessMimeType res = ("application/json"%string, None)
  ∧ (0 < res_Length res)%N
  ∧ header w' !! transferEncodingHeader = Some ["chunked"%string]
  ∧ header w' !! contentLengthHeader = Some ["1234"%string].
Proof.
  cbv zeta.
  destruct (X14_transfer_encoding_and_content_length plain_Header_Write
              sample_ResponseWriter (mkHttpRequest "GET") (sample_Request "json")
              (mkResponse (sample_Request "json") None OutValue 1234 ([read_eof], None))
              "application/json" [read_eof] eq_refl eq_refl)
    as (H1 & _ & _).
  split_and!; [reflexivity|reflexivity|exact H1|vm_compute; reflexivity].
Defined.

(** ** The whole handler *)

Lemma ServeHTTP_served
    (Header_Write : Header → string)
    (Parse : http_Request → Command → Request * option error)
    (SetRootContext : Request → option error)
    (i : internalHandler) (w : ResponseWriter) (r : http_Request) (req : Request) :
  Parse r (root i) = (req, None) →
  GetNode (ctx i) = None →
  SetRootContext req = None →
  ServeHTTP Header_Write Parse SetRootContext i w r
  = sendResponse Header_Write
      (with_header (with_log w (LogDebug "Incoming API request: "))
         (apply_headers (Headers (cfg i)) (header w)))
      r req (Call (root i) req).
Proof. intros Hp Hn Hs. unfold ServeHTTP. by rewrite Hp, Hn, Hs. Qed.

(** X15.  In the response to a request that is served, an extra header
    of the operator keeps its value unless its name is reserved for CORS
    or is one of the five names that [sendResponse] sets; the headers of
    [sendResponse] come last, so Transfer-Encoding is chunked even when
    the operator configures another value for it. *)
Theorem X15_operator_headers_and_their_precedence
    (Header_Write : Header → string)
    (Parse : http_Request → Command → Request * option error)
    (SetRootContext : Request → option error)
    (i : internalHandler) (w : ResponseWriter) (r : http_Request)
    (req : Request) (mime : string) (out : Reader) :
  Parse r (root i) = (req, None) →
  GetNode (ctx i) = None →
  SetRootContext req = None →
  guessMimeType (Call (root i) req) = (mime, None) →
  res_Reader (Call (root i) req) = (out, None) →
  let w' := ServeHTTP Header_Write Parse SetRootContext i w r in
  (∀ k v, Headers (cfg i) !! k = Some v →
          k ∉ reserved_cors_headers →
          k ∉ [contentLengthHeader; streamHeader; channelHeader; contentTypeHeader;
               transferEncodingHeader] →
          header w' !! k = Some v)
  ∧ (∀ k, Headers (cfg i) !! k = None →
          k ∉ [contentLengthHeader; streamHeader; channelHeader; contentTypeHeader;
               transferEncodingHeader] →
          header w' !! k = header w !! k)
  ∧ header w' !! transferEncodingHeader = Some ["chunked"%string].
Proof.
  intros Hp Hn Hs Hg Hr w'. subst w'. rewrite (ServeHTTP_served _ _ _ _ _ _ req Hp Hn Hs).
  split_and!.
  - intros k v Hk Hres Hset. rewrite sendResponse_header_other by done. simpl.
    rewrite apply_headers_lookup. apply skipAPIHeader_false in Hres. by rewrite Hres, Hk.
  - intros k Hk Hset. rewrite sendResponse_header_other by done. simpl.
    rewrite apply_headers_lookup, Hk. by destruct (skipAPIHeader k).
  - rewrite (sendResponse_header _ _ _ _ _ mime out Hg Hr). apply assemble_headers_markers.
Qed.

Lemma X15_witness :
  let i := mkInternal (mkContext None)
             (mkCommand (λ req, sample_Response "json" None [read_eof]))
             (mkServerConfig
                (<["Transfer-Encoding"%string := ["identity"%string]]> sample_extra_headers)
                None) in
  let w' := ServeHTTP plain_Header_Write (λ _ _, (sample_Request "json", None))
              (λ _, None) i sample_ResponseWriter (mkHttpRequest "GET") in
  Headers (cfg i) !! "X-Served-By"%string = Some ["gateway"%string]
  ∧ Headers (cfg i) !! "Transfer-Encoding"%string = Some ["identity"%string]
  ∧ header w' !! "X-Served-By"%string = Some ["gateway"%string]
  ∧ header w' !! "Transfer-Encoding"%string = Some ["chunked"%string].
Proof.
  cbv zeta.
  destruct (X15_operator_headers_and_their_precedence plain_Header_Write
              (λ _ _, (sample_Request "json", None)) (λ _, None)
              (mkInternal (mkContext None)
                 (mkCommand (λ req, sample_Response "json" None [read_eof]))
                 (mkServerConfig
                    (<["Transfer-Encoding"%string := ["identity"%string]]>
                       sample_extra_headers) None))
              sample_ResponseWriter (mkHttpRequest "GET") (sample_Request "json")
              "application/json" [read_eof] eq_refl eq_refl eq_refl eq_refl eq_refl)
    as (H1 & _ & H3).
  split_and!; [reflexivity|reflexivity| |exact H3].
  apply (H1 "X-Served-By"%string ["gateway"%string] eq_refl).
  - apply skipAPIHeader_false. reflexivity.
  - rewrite !elem_of_cons, elem_of_nil. intros H.
    repeat (destruct H as [H|H]; [discriminate H|]). done.
Defined.

(** X16.  A request that is served on a connection that accepts the
    writes gets, through the hijacked connection, the status line of the
    result's status, the header block of the response headers (the
    operator's headers under those of [sendResponse]), the chunk records
    of the non-empty reads, the terminal chunk, the trailer if a read
    failed, and the blank line.  Nothing is sent on the library's path,
    the connection is closed, and the failure of a read, and nothing
    else, is logged as an error. *)
Theorem X16_served_request_end_to_end
    (Header_Write : Header → string)
    (Parse : http_Request → Command → Request * option error)
    (SetRootContext : Request → option error)
    (i : internalHandler) (w : ResponseWriter) (r : http_Request)
    (req : Request) (mime : string) (out : Reader) :
  Parse r (root i) = (req, None) →
  GetNode (ctx i) = None →
  SetRootContext req = None →
  guessMimeType (Call (root i) req) = (mime, None) →
  res_Reader (Call (root i) req) = (out, None) →
  Method r ≠ "HEAD"%string →
  hijack w = Hijackable →
  healthy (rw w) →
  let res := Call (root i) req in
  let h := assemble_headers (apply_headers (Headers (cfg i)) (header w)) mime req res in
  let w' := ServeHTTP Header_Write Parse SetRootContext i w r in
  wire (wr (rw w'))
  = pending (rw w) +:+ response_bytes Header_Write (status_of res) h out
  ∧ header w' = h
  ∧ hijacked w' = true
  ∧ closed (wr (rw w')) = true
  ∧ sent_status w' = sent_status w
  ∧ sent_body w' = sent_body w
  ∧ log w'
    = log w ++ [LogDebug "Incoming API request: "]
      ++ match read_outcome out with
         | Some e => [LogError ("error while writing stream" +:+ Error e)]
         | None => []
         end.
Proof.
  intros Hp Hn Hs Hg Hr Hm Hh Hw res h w'. subst w' h res.
  rewrite (ServeHTTP_served _ _ _ _ _ _ req Hp Hn Hs).
  set (res := Call (root i) req) in *.
  set (w0 := with_header (with_log w (LogDebug "Incoming API request: "))
               (apply_headers (Headers (cfg i)) (header w))).
  destruct (sendResponse_not_HEAD Header_Write w0 r req res mime out Hg Hr Hm) as (Heq & _).
  rewrite Heq. cbv zeta.
  change (header w0) with (apply_headers (Headers (cfg i)) (header w)).
  set (h := assemble_headers (apply_headers (Headers (cfg i)) (header w)) mime req res).
  set (w1 := with_header w0 h).
  destruct (writeResponse_healthy Header_Write (status_of res) w1 out Hh Hw)
    as (Hres & Hwire & _).
  destruct (writeResponse_hijacked Header_Write (status_of res) w1 out Hh)
    as (_ & Hj & Hc & Hhd & Hst & Hbd & Hlg).
  destruct (writeResponse Header_Write (status_of res) w1 out) as [w2 res2].
  simpl in Hres, Hwire, Hj, Hc, Hhd, Hst, Hbd, Hlg. subst res2.
  assert (wire (wr (rw w2))
          = pending (rw w) +:+ response_bytes Header_Write (status_of res) h out) as Hw2.
  { rewrite Hwire. unfold response_bytes. by norm_app. }
  destruct (read_outcome out) as [e|]; simpl; rewrite ?Hlg; simpl; split_and!;
    try done; rewrite <- ?app_assoc, ?app_nil_r; done.
Qed.

Lemma X16_witness :
  let i := mkInternal (mkContext None)
             (mkCommand (λ req, sample_Response "json" None [read_ok "{}"; read_eof]))
             (mkServerConfig sample_extra_headers None) in
  let w' := ServeHTTP plain_Header_Write (λ _ _, (sample_Request "json", None))
              (λ _, None) i sample_ResponseWriter (mkHttpRequest "GET") in
  healthy (rw sample_ResponseWriter)
  ∧ hijacked w' = true
  ∧ log w' = [LogDebug "Incoming API request: "]
  ∧ wire (wr (rw w'))
    = response_bytes plain_Header_Write 200 (header w') [read_ok "{}"; read_eof].
Proof.
  cbv zeta.
  assert (healthy (rw sample_ResponseWriter)) as Hw.
  { unfold healthy. simpl. split_and!; [done|done|lia|lia]. }
  assert (mkHttpRequest "GET" ≠ mkHttpRequest "HEAD") as Hne by discriminate.
  destruct (X16_served_request_end_to_end plain_Header_Write
              (λ _ _, (sample_Request "json", None)) (λ _, None)
              (mkInternal (mkContext None)
                 (mkCommand (λ req, sample_Response "json" None [read_ok "{}"; read_eof]))
                 (mkServerConfig sample_extra_headers None))
              sample_ResponseWriter (mkHttpRequest "GET") (sample_Request "json")
              "application/json" [read_ok "{}"; read_eof]
              eq_refl eq_refl eq_refl eq_refl eq_refl
              (λ H : Method (mkHttpRequest "GET") = "HEAD"%string,
                 Hne (f_equal mkHttpRequest H))
              eq_refl Hw) as (H1 & H2 & H3 & _ & _ & _ & H7).
  split_and!; [exact Hw|exact H3|exact H7|].
  rewrite H2. exact H1.
Defined.

(** X17.  When the response writer cannot be hijacked, [sendResponse]
    writes nothing at all, neither on the connection nor on the library's
    path: it has assembled the headers, and it only logs the failure, two
    lines when the writer is no hijacker and one when [Hijack] returned
    an error. *)
Theorem X17_no_hijack_no_response
    (Header_Write : Header → string) (w : ResponseWriter) (r : http_Request)
    (req : Request) (res : Response) (mime : string) (out : Reader) :
  guessMimeType res = (mime, None) →
  res_Reader res = (out, None) →
  Method r ≠ "HEAD"%string →
  hijack w ≠ Hijackable →
  let w' := sendResponse Header_Write w r req res in
  rw w' = rw w
  ∧ hijacked w' = hijacked w
  ∧ sent_status w' = sent_status w
  ∧ sent_body w' = sent_body w
  ∧ header w' = assemble_headers (header w) mime req res
  ∧ log w'
    = log w
      ++ match hijack w with
         | NotHijacker =>
             [LogError "Failed to create hijacker! cannot continue!";
              LogError "error while writing streamCould not create hijacker"]
         | HijackFails e => [LogError ("error while writing stream" +:+ Error e)]
         | Hijackable => []
         end.
Proof.
  intros Hg Hr Hm Hh w'. subst w'.
  destruct (sendResponse_not_HEAD Header_Write w r req res mime out Hg Hr Hm) as (-> & _).
  cbv zeta. unfold writeResponse. simpl.
  destruct (hijack w) as [|e|]; [| |done]; simpl; split_and!; try done.
  by rewrite <- app_assoc.
Qed.

Lemma X17_witness :
  let w := mkRW ∅ NotHijacker false sample_Writer None EmptyString [] in
  let res := sample_Response "json" None [read_ok "{}"; read_eof] in
  let w' := sendResponse plain_Header_Write w (mkHttpRequest "GET")
              (sample_Request "json") res in
  hijack w ≠ Hijackable
  ∧ wire (wr (rw w')) = EmptyString
  ∧ sent_status w' = None
  ∧ sent_body w' = EmptyString.
Proof.
  cbv zeta.
  assert (NotHijacker ≠ Hijackable) as Hh by discriminate.
  assert (mkHttpRequest "GET" ≠ mkHttpRequest "HEAD") as Hne by discriminate.
  destruct (X17_no_hijack_no_response plain_Header_Write
              (mkRW ∅ NotHijacker false sample_Writer None EmptyString [])
              (mkHttpRequest "GET") (sample_Request "json")
              (sample_Response "json" None [read_ok "{}"; read_eof])
              "application/json" [read_ok "{}"; read_eof] eq_refl eq_refl
              (λ H : Method (mkHttpRequest "GET") = "HEAD"%string,
                 Hne (f_equal mkHttpRequest H))
              Hh) as (H1 & _ & H3 & H4 & _).
  split_and!; [exact Hh|by rewrite H1|exact H3|exact H4].
Defined.

(** X18.  [NewHandler] completes a configuration once and for all: given
    the configuration of the handler it has built, it builds the same
    handler again. *)
Theorem X18_NewHandler_is_idempotent (c : Context) (rt : Command)
    (config : option ServerConfig) :
  (h ← NewHandler c rt config; NewHandler c rt (Some (cfg (internal h))))
  = NewHandler c rt config.
Proof.
  unfold NewHandler.
  by destruct config as [[hs [[[origins|] [methods|]]|]]|].
Qed.
